(** * Pin and skewer detection over python-chess boards

    A shallow embedding of [detect_pins_skewers.py] (class
    [PinSkewerDetector]) and the properties of its detectors, of the
    move-tactic evaluator and of the position, game and PGN analyzers.

    The program is written against the python-chess library.  The parts of
    the library the detectors query ([piece_at], [turn], [king],
    [pin_mask], the square helpers) are modelled concretely; the rules
    engine ([push], [is_legal], [is_game_over]) and the UCI engine are
    interfaces ([Rules], [Engine]) the analyzers are parametric in. *)

From stdpp Require Import gmap strings list fin_maps pretty.
From Stdlib Require Import ZArith Lia Sorted.

Local Open Scope Z_scope.

(** ** Pieces, colours, moves *)

(** [chess.PieceType]: the integers 1..6, used by the program only through
    the six named constants. *)
Inductive PieceType := PAWN | KNIGHT | BISHOP | ROOK | QUEEN | KING.

#[global] Instance PieceType_eq_dec : EqDecision PieceType.
Proof. solve_decision. Defined.

(** [chess.Color] is [bool]: [chess.WHITE = True], [chess.BLACK = False]. *)
Definition Color := bool.
Definition WHITE : Color := true.
Definition BLACK : Color := false.

Record Piece := mkPiece { piece_type : PieceType; color : Color }.

#[global] Instance Piece_eq_dec : EqDecision Piece.
Proof. solve_decision. Defined.

(** [chess.Move]: a dataclass compared field by field. *)
Record Move := mkMove {
  from_square : Z;
  to_square : Z;
  promotion : option PieceType;
  drop : option PieceType
}.

#[global] Instance Move_eq_dec : EqDecision Move.
Proof. solve_decision. Defined.

(** [Move.__bool__]: the null move (0000) is the only falsy move. *)
Definition move_bool (m : Move) : bool :=
  negb (from_square m =? 0) || negb (to_square m =? 0)
  || bool_decide (is_Some (promotion m)) || bool_decide (is_Some (drop m)).

(** Truthiness of an [Optional[chess.Move]]. *)
Definition opt_move_bool (om : option Move) : bool :=
  match om with
  | Some m => move_bool m
  | None => false
  end.

(** ** Squares *)

Definition SQUARES : list Z := seqZ 0 64.

Definition square_file (square : Z) : Z := Z.land square 7.
Definition square_rank (square : Z) : Z := Z.shiftr square 3.

Definition BB_SQUARES (square : Z) : Z := Z.shiftl 1 square.
Definition BB_ALL : Z := 18446744073709551615.

Definition FILE_NAMES : list string := ["a"; "b"; "c"; "d"; "e"; "f"; "g"; "h"]%string.
Definition RANK_NAMES : list string := ["1"; "2"; "3"; "4"; "5"; "6"; "7"; "8"]%string.

Definition square_name (square : Z) : string :=
  String.append (FILE_NAMES !!! Z.to_nat (square_file square))
                (RANK_NAMES !!! Z.to_nat (square_rank square)).

Definition in_range (square : Z) : bool := (0 <=? square) && (square <? 64).

(** ** Boards *)

(** The state of a [chess.Board] object.  The detectors read [pieces],
    [turn] and (through [king]) [promoted]; the remaining fields are what
    [push] maintains besides. *)
Record Board := mkBoard {
  pieces : gmap Z Piece;
  turn : Color;
  promoted : Z;
  castling_rights : Z;
  ep_square : option Z;
  halfmove_clock : Z;
  fullmove_number : Z;
  move_stack : list Move
}.

Definition piece_at (b : Board) (square : Z) : option Piece := pieces b !! square.

(** [Board.king]: the most significant bit of
    [occupied_co[color] & kings & ~promoted], [None] when the mask is 0. *)
Definition is_king_of (b : Board) (c : Color) (square : Z) : bool :=
  match piece_at b square with
  | Some p => bool_decide (piece_type p = KING) && bool_decide (color p = c)
              && negb (Z.testbit (promoted b) square)
  | None => false
  end.

Definition king (b : Board) (c : Color) : option Z :=
  head (filter (λ s, is_king_of b c s = true) (reverse SQUARES)).

(** ** Outcomes of running Python code *)

Inductive exn := TypeError | AssertionError | FileNotFoundError.

(** Why a call did not return: an exception was raised; the loop was still
    running when the fuel of the model ran out (this stands for
    non-termination); or a reference named no object (which no Python
    program can observe: references are always live). *)
Inductive abort := Raised (e : exn) | OutOfFuel | NoSuchObject.

Inductive res (A : Type) :=
  | Ret (a : A)
  | Abort (c : abort).
Arguments Ret {A} a.
Arguments Abort {A} c.

Abbreviation Raise e := (Abort (Raised e)).

Definition res_bind {A B} (r : res A) (k : A → res B) : res B :=
  match r with
  | Ret a => k a
  | Abort c => Abort c
  end.

#[global] Instance res_ret_inst : MRet res := @Ret.
#[global] Instance res_bind_inst : MBind res := λ A B k r, res_bind r k.
#[global] Instance res_fmap_inst : FMap res := λ A B f r, res_bind r (λ a, Ret (f a)).

Definition returns {A} (r : res A) : Prop := ∃ a, r = Ret a.

(** A [for] loop over a list threading an accumulator. *)
Fixpoint for_each {A S} (xs : list A) (acc : S) (body : S → A → res S) : res S :=
  match xs with
  | [] => Ret acc
  | x :: xs' => acc' ← body acc x; for_each xs' acc' body
  end.

(** ** The detector *)

(** [self.piece_values]. *)
Definition piece_values (t : PieceType) : Z :=
  match t with
  | PAWN => 1
  | KNIGHT => 3
  | BISHOP => 3
  | ROOK => 5
  | QUEEN => 9
  | KING => 100
  end.

(** *** Skewers *)

(** The dictionaries collected in [pieces_in_line]. *)
Record LinePiece := mkLinePiece {
  lp_square : Z;
  lp_piece_type : PieceType;
  lp_value : Z
}.

(** The dictionaries with ['type': 'skewer']. *)
Record Skewer := mkSkewer {
  attacking_piece : PieceType;
  attacking_square : string;
  front_target : PieceType;
  front_square : string;
  back_target : PieceType;
  back_square : string
}.

(** The state of the inner [while True] loop of [find_skewers_from_piece];
    [visited] is a ghost record of the squares handed to [piece_at]. *)
Record Scan := mkScan {
  visited : list Z;
  pieces_in_line : list LinePiece
}.

Fixpoint skewer_scan (fuel : nat) (b : Board) (piece : Piece)
    (file_diff rank_diff : Z) (current_square : Z) (st : Scan) : res Scan :=
  match fuel with
  | O => Abort OutOfFuel
  | S fuel' =>
    let current_square := current_square + file_diff + 8 * rank_diff in
    if negb (in_range current_square) then Ret st
    else
      let seen := visited st ++ [current_square] in
      match piece_at b current_square with
      | Some target_piece =>
        if bool_decide (color target_piece ≠ color piece) then
          let line := pieces_in_line st ++
            [mkLinePiece current_square (piece_type target_piece)
                         (piece_values (piece_type target_piece))] in
          if bool_decide (length line = 2%nat) then Ret (mkScan seen line)
          else skewer_scan fuel' b piece file_diff rank_diff current_square
                           (mkScan seen line)
        else Ret (mkScan seen (pieces_in_line st))
      | None =>
        skewer_scan fuel' b piece file_diff rank_diff current_square
                    (mkScan seen (pieces_in_line st))
      end
  end.

(** Fuel given to the ray loops: a ray leaves the 64 squares sooner. *)
Definition ray_fuel : nat := 64.

Definition skewer_directions (t : PieceType) : list (Z * Z) :=
  (if bool_decide (t ∈ [QUEEN; ROOK]) then [(0, 1); (0, -1); (1, 0); (-1, 0)] else [])
  ++ (if bool_decide (t ∈ [QUEEN; BISHOP]) then [(1, 1); (1, -1); (-1, 1); (-1, -1)] else []).

(** The body of [for direction in directions]. *)
Definition skewer_direction_step (b : Board) (piece_square : Z) (piece : Piece)
    (skewers : list Skewer) (direction : Z * Z) : res (list Skewer) :=
  let '(file_diff, rank_diff) := direction in
  st ← skewer_scan ray_fuel b piece file_diff rank_diff piece_square (mkScan [] []);
  match pieces_in_line st with
  | [front_piece; back_piece] =>
    if lp_value front_piece >? lp_value back_piece then
      Ret (skewers ++
        [mkSkewer (piece_type piece) (square_name piece_square)
                  (lp_piece_type front_piece) (square_name (lp_square front_piece))
                  (lp_piece_type back_piece) (square_name (lp_square back_piece))])
    else Ret skewers
  | _ => Ret skewers
  end.

Definition find_skewers_from_piece (b : Board) (piece_square : Z) (piece : Piece)
    : res (list Skewer) :=
  for_each (skewer_directions (piece_type piece)) []
           (skewer_direction_step b piece_square piece).

Definition detect_skewers (b : Board) : res (list Skewer) :=
  let sliding_pieces := [QUEEN; ROOK; BISHOP] in
  for_each SQUARES [] (λ skewers square,
    match piece_at b square with
    | Some piece =>
      if bool_decide (color piece = turn b)
         && bool_decide (piece_type piece ∈ sliding_pieces)
      then found ← find_skewers_from_piece b square piece; Ret (skewers ++ found)
      else Ret skewers
    | None => Ret skewers
    end).

(** The value stored with a collected piece is the value of its kind. *)
Definition valued (lp : LinePiece) : Prop := lp_value lp = piece_values (lp_piece_type lp).

Definition front_outweighs_back (s : Skewer) : Prop :=
  piece_values (front_target s) > piece_values (back_target s).

(** *** Pins *)

(** [Board.pin_mask] of python-chess, on bitboards.  [bb_of p] is the
    bitboard of the squares satisfying [p]. *)
Definition bb_of (p : Z → bool) : Z :=
  foldr (λ s acc, if p s then Z.lor (BB_SQUARES s) acc else acc) 0 SQUARES.

Inductive LineKind := FileLine | RankLine | DiagLine.

(** [BB_FILE_ATTACKS[k][0]], [BB_RANK_ATTACKS[k][0]], [BB_DIAG_ATTACKS[k][0]]:
    the squares a slider on [k] reaches on an empty board. *)
Definition on_empty_ray (kind : LineKind) (k s : Z) : bool :=
  negb (s =? k) &&
  match kind with
  | FileLine => square_file s =? square_file k
  | RankLine => square_rank s =? square_rank k
  | DiagLine => Z.abs (square_file s - square_file k)
                =? Z.abs (square_rank s - square_rank k)
  end.

Definition empty_rays (kind : LineKind) (k : Z) : Z := bb_of (on_empty_ray kind k).

Definition aligned (a b : Z) : bool :=
  on_empty_ray FileLine a b || on_empty_ray RankLine a b || on_empty_ray DiagLine a b.

Definition on_line (a b s : Z) : bool :=
  (square_file s - square_file a) * (square_rank b - square_rank a)
  =? (square_rank s - square_rank a) * (square_file b - square_file a).

(** [chess.ray(a, b)]: the whole line through two aligned squares. *)
Definition ray (a b : Z) : Z := bb_of (λ s, aligned a b && on_line a b s).

(** [chess.between(a, b)]: the squares strictly between two aligned squares. *)
Definition is_between (a b s : Z) : bool :=
  aligned a b && on_line a b s && (Z.min a b <? s) && (s <? Z.max a b).

Definition between (a b : Z) : Z := bb_of (is_between a b).

Definition occupied (b : Board) : Z := bb_of (λ s, bool_decide (is_Some (piece_at b s))).

(** [sliders & occupied_co[not color]] for the sliders of a line kind. *)
Definition enemy_sliders (b : Board) (c : Color) (kind : LineKind) : Z :=
  bb_of (λ s,
    match piece_at b s with
    | Some p =>
      bool_decide (color p = negb c) &&
      match kind with
      | DiagLine => bool_decide (piece_type p ∈ [BISHOP; QUEEN])
      | _ => bool_decide (piece_type p ∈ [ROOK; QUEEN])
      end
    | None => false
    end).

(** [scan_reversed]: the squares of a bitboard, highest first. *)
Definition scan_reversed (bb : Z) : list Z :=
  filter (λ s, Z.testbit bb s = true) (reverse SQUARES).

Definition pin_mask_on (b : Board) (c : Color) (king_sq square : Z) (kind : LineKind)
    : option Z :=
  let square_mask := BB_SQUARES square in
  let rays := empty_rays kind king_sq in
  if Z.land rays square_mask =? 0 then None
  else
    let snipers := Z.land rays (enemy_sliders b c kind) in
    Some (from_option (ray king_sq) BB_ALL
      (head (filter (λ sniper,
               Z.land (between sniper king_sq) (Z.lor (occupied b) square_mask)
               = square_mask)
             (scan_reversed snipers)))).

(** The square argument is an [Optional[Square]] at the call site; the
    library returns before looking at it when there is no king. *)
Definition pin_mask (b : Board) (c : Color) (square : option Z) : Z :=
  match king b c, square with
  | Some king_sq, Some sq =>
    match pin_mask_on b c king_sq sq FileLine with
    | Some m => m
    | None =>
      match pin_mask_on b c king_sq sq RankLine with
      | Some m => m
      | None => default BB_ALL (pin_mask_on b c king_sq sq DiagLine)
      end
    end
  | _, _ => BB_ALL
  end.

(** The dictionary returned by [find_pinning_piece]. *)
Record PinningPiece := mkPinningPiece {
  pp_piece_type : PieceType;
  pp_square : string
}.

(** The dictionaries with ['type': 'pin'] (['target'] is always ['king']). *)
Record Pin := mkPin {
  pinned_piece : PieceType;
  pinned_square : string;
  pinning_piece : PieceType;
  pinning_square : string
}.

Definition can_piece_pin (t : PieceType) (file_diff rank_diff : Z) : bool :=
  match t with
  | QUEEN => true
  | ROOK => (file_diff =? 0) || (rank_diff =? 0)
  | BISHOP => Z.abs file_diff =? Z.abs rank_diff
  | _ => false
  end.

(** The [while True] loop of [find_pinning_piece]; the first component of
    the result is a ghost record of the squares handed to [piece_at]. *)
Fixpoint pin_scan (fuel : nat) (b : Board) (file_diff rank_diff : Z)
    (current_square : Z) (seen : list Z) : res (list Z * option PinningPiece) :=
  match fuel with
  | O => Abort OutOfFuel
  | S fuel' =>
    let current_square := current_square - file_diff - 8 * rank_diff in
    if negb (in_range current_square) then Ret (seen, None)
    else
      let seen := seen ++ [current_square] in
      match piece_at b current_square with
      | Some piece =>
        if bool_decide (color piece ≠ turn b)
           && can_piece_pin (piece_type piece) file_diff rank_diff
        then Ret (seen, Some (mkPinningPiece (piece_type piece)
                                             (square_name current_square)))
        else Ret (seen, None)
      | None => pin_scan fuel' b file_diff rank_diff current_square seen
      end
  end.

(** Python's [d // abs(d)] guarded by [d != 0]. *)
Definition normalize (d : Z) : Z := if bool_decide (d ≠ 0) then d `div` Z.abs d else d.

Definition find_pinning_piece (b : Board) (pinned_square : Z) (king_square : option Z)
    : res (option PinningPiece) :=
  match king_square with
  | None => Raise TypeError
  | Some king_square =>
    let file_diff := normalize (square_file king_square - square_file pinned_square) in
    let rank_diff := normalize (square_rank king_square - square_rank pinned_square) in
    r ← pin_scan ray_fuel b file_diff rank_diff pinned_square [];
    Ret (r.2)
  end.

Definition detect_pins (b : Board) : res (list Pin) :=
  let pin_mask := pin_mask b (turn b) (king b (turn b)) in
  for_each SQUARES [] (λ pins square,
    if negb (Z.land pin_mask (BB_SQUARES square) =? 0) then
      match piece_at b square with
      | Some piece =>
        if bool_decide (color piece = turn b) then
          let king_square := king b (turn b) in
          pinning_piece ← find_pinning_piece b square king_square;
          match pinning_piece with
          | Some pp =>
            Ret (pins ++ [mkPin (piece_type piece) (square_name square)
                                (pp_piece_type pp) (pp_square pp)])
          | None => Ret pins
          end
        else Ret pins
      | None => Ret pins
      end
    else Ret pins).

(** ** The library interfaces the analyzers are parametric in *)

(** The rules engine of python-chess.  [push] is the state change of
    [Board.push]; it is [None] where the library's assertion that the move
    has a piece to move fails. *)
Class Rules := {
  push : Board → Move → option Board;
  is_legal : Board → Move → bool;
  is_game_over : Board → bool
}.

(** What [engine.analyse] does: it raises, or returns an info dictionary
    whose ['pv'] entry may be missing. *)
Inductive Analysis := EngineError | Info (pv : option (list Move)).

Class Engine := {
  engine_state : Type;
  analyse : engine_state → Board → Analysis * engine_state
}.

(** ** Objects and effects *)

Definition loc := positive.

(** A parsed game: [game.board()] and [game.mainline_moves()]. *)
Record Game := mkGame {
  game_board : Board;
  mainline_moves : list Move
}.

Section Analyzer.
Context `{rules : Rules} `{eng : Engine}.

(** The world the program runs in: the [chess.Board] objects, the engine
    behind [self.engine] ([None] before [start_engine]), and a ghost log of
    the positions sent to the engine. *)
Record world := mkWorld {
  heap : gmap loc Board;
  engine : option engine_state;
  oracle_log : list Board
}.

Definition M (A : Type) : Type := world → res A * world.

Definition M_ret {A} (a : A) : M A := λ w, (Ret a, w).

Definition M_bind {A B} (m : M A) (k : A → M B) : M B := λ w,
  match m w with
  | (Ret a, w') => k a w'
  | (Abort c, w') => (Abort c, w')
  end.

#[global] Instance M_ret_inst : MRet M := @M_ret.
#[global] Instance M_bind_inst : MBind M := λ A B k m, M_bind m k.

Definition lift {A} (r : res A) : M A := λ w, (r, w).

(** [try: body except Exception: handler]. *)
Definition try_except {A} (body : M A) (handler : exn → M A) : M A := λ w,
  match body w with
  | (Raise e, w') => handler e w'
  | other => other
  end.

(** Dereferencing a board. *)
Definition board_at (l : loc) : M Board := λ w,
  match heap w !! l with
  | Some b => (Ret b, w)
  | None => (Abort NoSuchObject, w)
  end.

(** A new board object. *)
Definition new_board (b : Board) : M loc := λ w,
  let l := fresh (dom (heap w)) in
  (Ret l, mkWorld (<[l := b]> (heap w)) (engine w) (oracle_log w)).

(** [board.copy()]. *)
Definition copy (board : loc) : M loc :=
  b ← board_at board; new_board b.

(** [board.push(move)]: the object is updated in place. *)
Definition push_at (board : loc) (move : Move) : M unit := λ w,
  match heap w !! board with
  | Some b =>
    match push b move with
    | Some b' =>
      (Ret (), mkWorld (<[board := b']> (heap w)) (engine w) (oracle_log w))
    | None => (Raise AssertionError, w)
    end
  | None => (Abort NoSuchObject, w)
  end.

(** *** The detector's methods over board objects *)

(** [result['pv'][0] if result.get('pv') else None]. *)
Definition first_of_pv (a : Analysis) : option Move :=
  match a with
  | Info (Some (m :: _)) => Some m
  | _ => None
  end.

(** [get_best_move]: every exception of the engine call (also the
    [AttributeError] when [self.engine] is [None]) becomes [None]. *)
Definition get_best_move (board : loc) : M (option Move) := λ w,
  match heap w !! board with
  | Some b =>
    match engine w with
    | Some e =>
      let '(a, e') := analyse e b in
      (Ret (first_of_pv a),
       mkWorld (heap w) (Some e') (oracle_log w ++ [b]))
    | None => (Ret None, w)
    end
  | None => (Abort NoSuchObject, w)
  end.

(** A pin or skewer dictionary. *)
Inductive Tactic := PinT (p : Pin) | SkewerT (s : Skewer).

(** [self.detect_pins(board)] and [self.detect_skewers(board)]: the
    detectors only read the board they are handed. *)
Definition detect_pins_on (board : loc) : M (list Pin) :=
  b ← board_at board; lift (detect_pins b).

Definition detect_skewers_on (board : loc) : M (list Skewer) :=
  b ← board_at board; lift (detect_skewers b).

Definition move_creates_pin_or_skewer (board : loc) (move : Move) : M (list Tactic) :=
  board_copy ← copy board;
  push_at board_copy move;;
  pins ← detect_pins_on board_copy;
  skewers ← detect_skewers_on board_copy;
  mret ((PinT <$> pins) ++ (SkewerT <$> skewers)).

Record PositionResult := mkPositionResult {
  executed : list Tactic;
  missed : list Tactic;
  allowed : list Tactic
}.

Definition analyze_position (board : loc) (player_move : option Move) : M PositionResult :=
  let result := mkPositionResult [] [] [] in
  match player_move with
  | Some player_move =>
    if negb (move_bool player_move) then mret result
    else
      best_move ← get_best_move board;
      player_tactics ← move_creates_pin_or_skewer board player_move;
      let result := mkPositionResult (executed result ++ player_tactics)
                                     (missed result) (allowed result) in
      result ← (if opt_move_bool best_move
                   && bool_decide (best_move ≠ Some player_move)
                then
                  match best_move with
                  | Some best_move =>
                    best_move_tactics ← move_creates_pin_or_skewer board best_move;
                    mret (mkPositionResult (executed result)
                                           (missed result ++ best_move_tactics)
                                           (allowed result))
                  | None => mret result
                  end
                else mret result);
      board_after_move ← copy board;
      push_at board_after_move player_move;;
      after ← board_at board_after_move;
      if negb (is_game_over after) then
        opponent_best ← get_best_move board_after_move;
        match opponent_best with
        | Some opponent_best =>
          if move_bool opponent_best then
            opponent_tactics ← move_creates_pin_or_skewer board_after_move opponent_best;
            mret (mkPositionResult (executed result) (missed result)
                                   (allowed result ++ opponent_tactics))
          else mret result
        | None => mret result
        end
      else mret result
  | None => mret result
  end.

(** A tactic dictionary after [analyze_game] has added ['move_number'] and
    ['color'] to it. *)
Record TaggedTactic := mkTagged {
  tactic : Tactic;
  move_number : Z;
  tactic_color : string
}.

Record GameResult := mkGameResult {
  g_executed : list TaggedTactic;
  g_missed : list TaggedTactic;
  g_allowed : list TaggedTactic
}.

Definition color_name (c : Color) : string := if c then "white" else "black".

(** The two nested loops over the categories and their tactics. *)
Definition add_tagged (game_result : GameResult) (position_result : PositionResult)
    (move_number : Z) (side : Color) : GameResult :=
  let tag t := mkTagged t move_number (color_name side) in
  mkGameResult (g_executed game_result ++ (tag <$> executed position_result))
               (g_missed game_result ++ (tag <$> missed position_result))
               (g_allowed game_result ++ (tag <$> allowed position_result)).

(** The [for move in game.mainline_moves()] loop; [break] returns. *)
Fixpoint game_loop (moves : list Move) (board : loc) (game_result : GameResult)
    (move_number : Z) : M GameResult :=
  match moves with
  | [] => mret game_result
  | move :: moves' =>
    b ← board_at board;
    if is_legal b move then
      position_result ← analyze_position board (Some move);
      let game_result := add_tagged game_result position_result move_number (turn b) in
      push_at board move;;
      b' ← board_at board;
      let move_number := if turn b' then move_number + 1 else move_number in
      game_loop moves' board game_result move_number
    else mret game_result
  end.

Definition analyze_game (game : Game) : M GameResult :=
  board ← new_board (game_board game);
  game_loop (mainline_moves game) board (mkGameResult [] [] []) 1.

(** [f"game_{game_count}"]. *)
Definition game_key (game_count : Z) : string := String.append "game_" (pretty game_count).

Definition game_keys : gset string :=
  list_to_set (game_key <$> [1; 2; 3; 4; 5]).

(** The [while game_count < 5] loop; [pgn_file] is what is left to read. *)
Fixpoint pgn_loop (pgn_file : list Game) (game_count : Z)
    (results : gmap string GameResult) : M (gmap string GameResult) :=
  if game_count <? 5 then
    match pgn_file with
    | [] => mret results
    | game :: pgn_file' =>
      let game_count := game_count + 1 in
      game_result ← analyze_game game;
      pgn_loop pgn_file' game_count (<[game_key game_count := game_result]> results)
    end
  else mret results.

(** [open(pgn_file_path, 'r')] on a disk [disk] that maps the path of a
    PGN file to the games [chess.pgn.read_game] yields from it in turn. *)
Definition open (disk : gmap string (list Game)) (pgn_file_path : string)
    : M (list Game) :=
  match disk !! pgn_file_path with
  | Some games => mret games
  | None => lift (Raise FileNotFoundError)
  end.

(** Both [except] clauses return the empty dictionary. *)
Definition analyze_pgn_file (disk : gmap string (list Game)) (pgn_file_path : string)
    : M (gmap string GameResult) :=
  try_except
    (pgn_file ← open disk pgn_file_path;
     pgn_loop pgn_file 0 ∅)
    (λ _, mret ∅).

(** *** Derived notions used to state the properties *)

(** The world after a board object holding [b] has been created. *)
Definition alloc (w : world) (b : Board) : world :=
  mkWorld (<[fresh (dom (heap w)) := b]> (heap w)) (engine w) (oracle_log w).

(** What the engine recommends on [b], and the engine after the query. *)
Definition recommend (e : option engine_state) (b : Board) : option Move :=
  match e with
  | Some e => first_of_pv (analyse e b).1
  | None => None
  end.

Definition engine_after (e : option engine_state) (b : Board) : option engine_state :=
  match e with
  | Some e => Some (analyse e b).2
  | None => None
  end.

(** The world after [get_best_move] on a board holding [b]. *)
Definition queried (w : world) (b : Board) : world :=
  match engine w with
  | Some _ => mkWorld (heap w) (engine_after (engine w) b) (oracle_log w ++ [b])
  | None => w
  end.

(** The pins followed by the skewers of a position. *)
Definition position_tactics (b : Board) : res (list Tactic) :=
  pins ← detect_pins b;
  skewers ← detect_skewers b;
  Ret ((PinT <$> pins) ++ (SkewerT <$> skewers)).

(** The position reached by playing [moves] from [b], as long as each is
    legal where it is played. *)
Fixpoint replay (b : Board) (moves : list Move) : option Board :=
  match moves with
  | [] => Some b
  | move :: moves' =>
    if is_legal b move then b' ← push b move; replay b' moves' else None
  end.

(** What the analyzers rely on: [valid] holds of the positions of standard
    chess.  Such a position has a king for the side to move; the null move
    is never legal; a legal move can be pushed and leads to such a position
    again; and a move the engine recommends there is legal. *)
Class Lawful (valid : Board → Prop) : Prop := {
  valid_king b : valid b → is_Some (king b (turn b));
  legal_not_null b m : is_legal b m = true → move_bool m = true;
  legal_push b m : valid b → is_legal b m = true →
    ∃ b', push b m = Some b' ∧ valid b';
  engine_legal e b m : valid b → first_of_pv (analyse e b).1 = Some m →
    move_bool m = true → is_legal b m = true
}.

End Analyzer.

(** ** A rules engine and a chess engine to run the analyzers with *)

Definition wP := mkPiece PAWN WHITE.
Definition wN := mkPiece KNIGHT WHITE.
Definition wB := mkPiece BISHOP WHITE.
Definition wR := mkPiece ROOK WHITE.
Definition wQ := mkPiece QUEEN WHITE.
Definition wK := mkPiece KING WHITE.
Definition bP := mkPiece PAWN BLACK.
Definition bN := mkPiece KNIGHT BLACK.
Definition bB := mkPiece BISHOP BLACK.
Definition bR := mkPiece ROOK BLACK.
Definition bQ := mkPiece QUEEN BLACK.
Definition bK := mkPiece KING BLACK.

(** A position with no history: no promoted pieces, no castling rights, no
    en-passant square, clocks as after [Board.clear]. *)
Definition position (ps : list (Z * Piece)) (side : Color) : Board :=
  mkBoard (list_to_map ps) side 0 0 None 0 1 [].

Definition plain (from to : Z) : Move := mkMove from to None None.

(** What [Board.push] does with a move of a piece (not a pawn) to a square
    that is empty or holds an enemy piece: the piece changes squares, the
    castling rights of the two squares (and of a king that moves) go, the
    half-move clock restarts on a capture, the turn is swapped. *)
Definition plain_push (b : Board) (m : Move) : option Board :=
  match piece_at b (from_square m) with
  | Some p =>
    let from_bb := BB_SQUARES (from_square m) in
    let to_bb := BB_SQUARES (to_square m) in
    let rights := Z.ldiff (Z.ldiff (castling_rights b) to_bb) from_bb in
    let rights :=
      if bool_decide (piece_type p = KING)
      then Z.ldiff rights (if turn b then 255 else 18374686479671623680)
      else rights in
    Some (mkBoard
      (<[to_square m := p]> (delete (from_square m) (pieces b)))
      (negb (turn b))
      (Z.lor (Z.ldiff (Z.ldiff (promoted b) from_bb) to_bb)
             (if Z.testbit (promoted b) (from_square m) then to_bb else 0))
      rights
      None
      (if bool_decide (is_Some (piece_at b (to_square m))) then 0
       else halfmove_clock b + 1)
      (if turn b then fullmove_number b else fullmove_number b + 1)
      (move_stack b ++ [m]))
  | None => None
  end.

(** The moves [plain_push] is written for; no king is ever captured. *)
Definition plain_legal (b : Board) (m : Move) : bool :=
  in_range (from_square m) && in_range (to_square m)
  && bool_decide (promotion m = None) && bool_decide (drop m = None)
  && match piece_at b (from_square m) with
     | Some p =>
       bool_decide (color p = turn b) && bool_decide (piece_type p ≠ PAWN)
       && match piece_at b (to_square m) with
          | Some q => bool_decide (color q ≠ turn b) && bool_decide (piece_type q ≠ KING)
          | None => true
          end
     | None => false
     end.

(** The game is over when a side is left with its king alone. *)
Definition plain_game_over (b : Board) : bool :=
  bool_decide (size (filter (λ kv, color kv.2 = turn b) (pieces b)) ≤ 1)%nat.

Definition plain_rules : Rules := {|
  push := plain_push;
  is_legal := plain_legal;
  is_game_over := plain_game_over
|}.

(** An engine that answers a number of queries and then fails: it
    recommends the first move [plain_legal] accepts that is not a king
    move, scanning the origin and target squares in ascending order. *)
Definition candidate_moves : list Move :=
  from ← SQUARES; to ← SQUARES; [plain from to].

Definition first_plain_move (b : Board) : list Move :=
  match filter (λ m, plain_legal b m = true ∧ move_bool m = true
                     ∧ piece_at b (from_square m) ≠ Some (mkPiece KING (turn b)))
               candidate_moves with
  | m :: _ => [m]
  | [] => []
  end.

Definition counting_engine : Engine := {|
  engine_state := nat;
  analyse := λ n b,
    match n with
    | O => (EngineError, O)
    | S n' => (Info (Some (first_plain_move b)), n')
    end
|}.

Definition start_world `{Engine} (e : option engine_state) : world :=
  mkWorld ∅ e [].

(** The positions [plain_rules] keeps to: both kings are on the board and
    no piece is marked as promoted. *)
Definition plain_valid (b : Board) : Prop :=
  (∀ c, is_Some (king b c)) ∧ promoted b = 0.

(** ** Positions used below *)

(** White: Kh1, Ra1.  Black: Kh8, Qa4, Ra8.  White to move: the rook on a1
    looks up the a-file at the queen and, behind it, the rook. *)
Definition file_a_skewer : Board :=
  position [(0, wR); (7, wK); (24, bQ); (56, bR); (63, bK)] WHITE.

(** White: Ke1, Nf3.  Black: Ke8, Bg4.  White to move.  The knight is a
    knight's move away from its king; the bishop attacks it. *)
Definition knight_f3 : Board :=
  position [(4, wK); (21, wN); (30, bB); (60, bK)] WHITE.

(** White: Ke1, Ne2.  Black: Kh8, Re8.  White to move.  The knight stands
    between its king and the rook on the e-file. *)
Definition knight_e2 : Board :=
  position [(4, wK); (12, wN); (60, bR); (63, bK)] WHITE.

(** White: Ka1, Ne1.  Black: Kh8, Rb2.  White to move. *)
Definition knight_e1 : Board :=
  position [(0, wK); (4, wN); (9, bR); (63, bK)] WHITE.

(** White: Kg1, Rh1.  Black: Ke8, Qa2, Rb2.  White to move. *)
Definition rook_h1 : Board :=
  position [(6, wK); (7, wR); (8, bQ); (9, bR); (60, bK)] WHITE.

(** White: Kc1, Qh5, Rh1.  Black: Ka8, Rh8.  White to move. *)
Definition h_file : Board :=
  position [(2, wK); (7, wR); (39, wQ); (56, bK); (63, bR)] WHITE.

(** The world in which a board object holding [h_file] has been created
    and the engine has [n] answers left. *)
Definition h_file_world (n : nat) : @world counting_engine :=
  alloc (@start_world counting_engine (Some n)) h_file.

(** A game from [h_file]: Kc1-c2 and Rh8-g8 are played; the third move
    starts from b1, which is empty. *)
Definition broken_game : Game :=
  mkGame h_file [plain 2 10; plain 63 62; plain 1 2; plain 7 15].

(** A game from [h_file] whose five moves are all played: Kc1-c2, Rh8-g8,
    Qh5-g5, Ka8-a7, Rh1-g1. *)
Definition five_plies : Game :=
  mkGame h_file [plain 2 10; plain 63 62; plain 39 38; plain 56 48; plain 7 6].

(** ** Whose pieces a record names *)

(** The square a record names holds a piece of the given kind and side. *)
Definition names_piece (b : Board) (name : string) (t : PieceType) (c : Color) : Prop :=
  ∃ sq p, 0 ≤ sq < 64 ∧ name = square_name sq ∧ piece_at b sq = Some p
          ∧ piece_type p = t ∧ color p = c.

(** The pinned piece is of the side to move, the pinning piece of the
    other side. *)
Definition pin_sides (b : Board) (p : Pin) : Prop :=
  names_piece b (pinned_square p) (pinned_piece p) (turn b)
  ∧ names_piece b (pinning_square p) (pinning_piece p) (negb (turn b)).

(** The attacking piece is of the side to move, both targets of the other
    side. *)
Definition skewer_sides (b : Board) (s : Skewer) : Prop :=
  names_piece b (attacking_square s) (attacking_piece s) (turn b)
  ∧ names_piece b (front_square s) (front_target s) (negb (turn b))
  ∧ names_piece b (back_square s) (back_target s) (negb (turn b)).

Definition tactic_sides (b : Board) (t : Tactic) : Prop :=
  match t with
  | PinT p => pin_sides b p
  | SkewerT s => skewer_sides b s
  end.

(** A collected piece stands on the board and is not of the side [c]. *)
Definition line_piece_of (b : Board) (c : Color) (lp : LinePiece) : Prop :=
  ∃ p, 0 ≤ lp_square lp < 64 ∧ piece_at b (lp_square lp) = Some p
       ∧ piece_type p = lp_piece_type lp ∧ color p = negb c.

(** ** Pins as the specification defines them *)

(** The specification's words: removing the piece on [pinned] would place
    the king of the side to move in check from the piece on [pinning]; the
    pinned piece is friendly to the side to move, the pinning piece is an
    opposing rook or queen on an orthogonal line or an opposing bishop or
    queen on a diagonal through the king, and no other piece stands between
    pinned and king or between pinned and pinning. *)
Definition spec_pinner_fits (t : PieceType) (king_sq pinning : Z) : bool :=
  if on_empty_ray FileLine king_sq pinning || on_empty_ray RankLine king_sq pinning
  then bool_decide (t ∈ [ROOK; QUEEN])
  else on_empty_ray DiagLine king_sq pinning && bool_decide (t ∈ [BISHOP; QUEEN]).

Definition spec_is_pin (b : Board) (pinned pinning : Z) : bool :=
  match king b (turn b), piece_at b pinned, piece_at b pinning with
  | Some king_sq, Some p, Some q =>
    bool_decide (color p = turn b) && bool_decide (color q ≠ turn b)
    && spec_pinner_fits (piece_type q) king_sq pinning
    && is_between king_sq pinning pinned
    && forallb (λ s, negb (is_between king_sq pinning s)
                     || (s =? pinned)
                     || bool_decide (piece_at b s = None)) SQUARES
  | _, _, _ => false
  end.

(** ** Notions for the further properties *)

(** [P] holds of what a call returns, if it returns. *)
Definition on_return {A} (o : res A) (P : A → Prop) : Prop :=
  match o with
  | Ret a => P a
  | Abort _ => True
  end.

Definition sliding (t : PieceType) : Prop := t ∈ [QUEEN; ROOK; BISHOP].

(** A pin as the loops find it: from the pinned square, stepping the square
    index away from the king (by the signs of the file and rank differences),
    the pinning piece is the first piece met, [n] steps away, and its kind
    fits the signs. *)
Definition pin_on_ray (b : Board) (p : Pin) : Prop :=
  ∃ king_sq sq n,
    king b (turn b) = Some king_sq ∧ 0 ≤ sq < 64 ∧ 0 < n ∧
    let file_diff := Z.sgn (square_file king_sq - square_file sq) in
    let rank_diff := Z.sgn (square_rank king_sq - square_rank sq) in
    let step := - file_diff - 8 * rank_diff in
    pinned_square p = square_name sq
    ∧ pinning_square p = square_name (sq + n * step)
    ∧ 0 ≤ sq + n * step < 64
    ∧ (∀ i, 0 < i < n → piece_at b (sq + i * step) = None)
    ∧ can_piece_pin (pinning_piece p) file_diff rank_diff = true.

(** A skewer as the loops find it: stepping the square index from the
    attacker in one of its directions, the front target is met after [i]
    steps and the back target after [j], with nothing else on the way. *)
Definition skewer_on_ray (b : Board) (s : Skewer) : Prop :=
  ∃ sq file_diff rank_diff i j,
    0 ≤ sq < 64
    ∧ (file_diff, rank_diff) ∈ skewer_directions (attacking_piece s)
    ∧ 0 < i < j ∧
    let step := file_diff + 8 * rank_diff in
    attacking_square s = square_name sq
    ∧ front_square s = square_name (sq + i * step)
    ∧ back_square s = square_name (sq + j * step)
    ∧ 0 ≤ sq + j * step < 64
    ∧ ∀ k, 0 < k < j → k ≠ i → piece_at b (sq + k * step) = None.

(** What the inner loop of [find_skewers_from_piece] knows after [n] steps
    from [sq0]: the squares passed are empty but for the pieces collected. *)
Definition line_state (b : Board) (sq0 step n : Z) (line : list LinePiece) : Prop :=
  (line = [] ∧ ∀ k, 0 < k ≤ n → piece_at b (sq0 + k * step) = None)
  ∨ (∃ lp i, line = [lp] ∧ 0 < i ≤ n ∧ lp_square lp = sq0 + i * step
       ∧ ∀ k, 0 < k ≤ n → k ≠ i → piece_at b (sq0 + k * step) = None).

Definition line_pair (b : Board) (sq0 step : Z) (line : list LinePiece) : Prop :=
  match line with
  | [front; back] =>
    ∃ i j, 0 < i < j
      ∧ lp_square front = sq0 + i * step ∧ lp_square back = sq0 + j * step
      ∧ 0 ≤ sq0 + j * step < 64
      ∧ ∀ k, 0 < k < j → k ≠ i → piece_at b (sq0 + k * step) = None
  | _ => True
  end.

(** [detect_pins] with the test of the pin mask left out. *)
Definition detect_pins_unmasked (b : Board) : res (list Pin) :=
  for_each SQUARES [] (λ pins square,
    match piece_at b square with
    | Some piece =>
      if bool_decide (color piece = turn b) then
        let king_square := king b (turn b) in
        pinning_piece ← find_pinning_piece b square king_square;
        match pinning_piece with
        | Some pp =>
          Ret (pins ++ [mkPin (piece_type piece) (square_name square)
                              (pp_piece_type pp) (pp_square pp)])
        | None => Ret pins
        end
      else Ret pins
    | None => Ret pins
    end).

(** The most skewers one piece can deliver: one for each of its directions. *)
Definition max_skewers (t : PieceType) : nat :=
  match t with
  | QUEEN => 8
  | ROOK | BISHOP => 4
  | _ => 0
  end.

#[global] Instance sliding_dec t : Decision (sliding t).
Proof. unfold sliding. apply _. Defined.

(** The side [c] has no queen, rook or bishop on the board. *)
Definition has_no_slider (b : Board) (c : Color) : bool :=
  forallb (λ sq,
    match piece_at b sq with
    | Some p => negb (bool_decide (color p = c))
                || negb (bool_decide (sliding (piece_type p)))
    | None => true
    end) SQUARES.

(** White: Ra1, no king.  Black: Kh8.  White to move. *)
Definition kingless : Board := position [(0, wR); (63, bK)] WHITE.

(** White: Ke1, Nf3.  Black: Ke8, Nb8.  White to move: no queen, rook or
    bishop on the board. *)
Definition knights_only : Board :=
  position [(4, wK); (21, wN); (57, bN); (60, bK)] WHITE.

(** A call ends as Python code can: it returns or it raises. *)
Definition clean {A} (o : res A) : Prop :=
  match o with
  | Ret _ | Raise _ => True
  | Abort _ => False
  end.

Section AnalyzerNotions.
Context `{rules : Rules} `{eng : Engine}.

(** From [w] the computation [m] ends as Python code can, in a world where
    every board object of [w] is as it was. *)
Definition framed {A} (m : M A) (w : world) : Prop :=
  heap w ⊆ heap (m w).2 ∧ clean (m w).1.

(** Every board object of [w] but [l] is in [w'] as it was. *)
Definition kept_except (l : loc) (w w' : world) : Prop :=
  ∀ l' b, l' ≠ l → heap w !! l' = Some b → heap w' !! l' = Some b.

(** What a call of the evaluator returns, as a list. *)
Definition tactics_of (o : res (list Tactic)) : list Tactic :=
  match o with
  | Ret tactics => tactics
  | Abort _ => []
  end.

(** The pins and skewers of the position after [m] is played on [b]. *)
Definition created (b : Board) (m : Move) : list Tactic :=
  match push b m with
  | Some b' => tactics_of (position_tactics b')
  | None => []
  end.

(** What goes into [missed]: the tactics of the engine's move on [b], when
    it has one that is not the played move [m]. *)
Definition expected_missed (e : option engine_state) (b : Board) (m : Move)
    : list Tactic :=
  match recommend e b with
  | Some best => if move_bool best && bool_decide (best ≠ m) then created b best else []
  | None => []
  end.

(** What goes into [allowed]: the tactics of the engine's reply on the
    position [b'] after the played move, unless the game is over there. *)
Definition expected_allowed (e : option engine_state) (b' : Board) : list Tactic :=
  if is_game_over b' then []
  else match recommend e b' with
       | Some reply => if move_bool reply then created b' reply else []
       | None => []
       end.

(** The positions sent to the engine for one ply. *)
Definition ply_queries (e : option engine_state) (b b' : Board) : list Board :=
  match e with
  | Some _ => b :: (if is_game_over b' then [] else [b'])
  | None => []
  end.

(** The engine after it has answered the queries of one ply. *)
Definition engine_after_ply (e : option engine_state) (b b' : Board)
    : option engine_state :=
  if is_game_over b' then engine_after e b else engine_after (engine_after e b) b'.

(** *** The specification's account of a game *)

(** One ply as the specification sees it: the colour that moved and the
    records the position analyzer produces for it. *)
Record Ply := mkPly {
  ply_mover : Color;
  ply_found : PositionResult
}.

(** The plies of [moves] played from [b] with the engine in state [e]. *)
Fixpoint spec_plies (b : Board) (e : option engine_state) (moves : list Move)
    : list Ply :=
  match moves with
  | [] => []
  | m :: moves' =>
    match push b m with
    | Some b' =>
      mkPly (turn b)
            (mkPositionResult (created b m) (expected_missed e b m)
                              (expected_allowed (engine_after e b) b'))
      :: spec_plies b' (engine_after_ply e b b') moves'
    | None => []
    end
  end.

(** The positions the engine is asked about over these plies. *)
Fixpoint spec_queries (b : Board) (e : option engine_state) (moves : list Move)
    : list Board :=
  match moves with
  | [] => []
  | m :: moves' =>
    match push b m with
    | Some b' => ply_queries e b b' ++ spec_queries b' (engine_after_ply e b b') moves'
    | None => []
    end
  end.

(** The 1-based full-move number of the ply that follows the plies
    [before]: one more than the number of moves Black has completed. *)
Definition spec_full_move_number (before : list Ply) : Z :=
  1 + Z.of_nat (length (filter (λ p, ply_mover p = BLACK) before)).

(** The records of one category over [plies], each tagged with the
    full-move number of its ply and the colour that moved, in order;
    [before] are the plies already played. *)
Fixpoint spec_tagged_from (category : PositionResult → list Tactic)
    (before plies : list Ply) : list TaggedTactic :=
  match plies with
  | [] => []
  | p :: plies' =>
    ((λ t, mkTagged t (spec_full_move_number before)
                    (if ply_mover p then "white" else "black"))
       <$> category (ply_found p))
    ++ spec_tagged_from category (before ++ [p]) plies'
  end.

(** The result the specification asks of the game analyzer when the moves
    [moves] are analyzed from [b]. *)
Definition spec_game_result (b : Board) (e : option engine_state) (moves : list Move)
    : GameResult :=
  let plies := spec_plies b e moves in
  mkGameResult (spec_tagged_from executed [] plies)
               (spec_tagged_from missed [] plies)
               (spec_tagged_from allowed [] plies).

(** The moves of [moves] before the first that is illegal where it is
    played. *)
Fixpoint legal_prefix (b : Board) (moves : list Move) : list Move :=
  match moves with
  | [] => []
  | m :: moves' =>
    if is_legal b m then
      m :: match push b m with
           | Some b' => legal_prefix b' moves'
           | None => []
           end
    else []
  end.

(** The tags of a list of records: move numbers from 1 to [last], never
    decreasing along the list, and one of the two colour names. *)
Definition tagged_upto (last : Z) (l : list TaggedTactic) : Prop :=
  Forall (λ t, 1 ≤ move_number t ≤ last
               ∧ (tactic_color t = "white" ∨ tactic_color t = "black")) l
  ∧ StronglySorted (λ t1 t2, move_number t1 ≤ move_number t2) l.

Definition numbered (last : Z) (r : GameResult) : Prop :=
  tagged_upto last (g_executed r)
  ∧ tagged_upto last (g_missed r)
  ∧ tagged_upto last (g_allowed r).

(** A disk with one file of six games, each [broken_game]. *)
Definition six_games : gmap string (list Game) :=
  {[ "games.pgn" := replicate 6 broken_game ]}.

(** The keys of the first [n] games. *)
Definition keys_upto (n : Z) : gset string := list_to_set (game_key <$> seqZ 1 n).

End AnalyzerNotions.

(** * Properties *)

(** ** Loops *)

Lemma for_each_total {A S} (P : S → Prop) (xs : list A) (body : S → A → res S) acc :
  P acc →
  (∀ acc x, x ∈ xs → P acc → ∃ acc', body acc x = Ret acc' ∧ P acc') →
  ∃ r, for_each xs acc body = Ret r ∧ P r.
Proof.
  revert acc. induction xs as [|x xs IH]; intros acc Hacc Hbody; simpl.
  - eauto.
  - destruct (Hbody acc x) as (acc' & -> & Hacc'); [left | done |].
    simpl. apply IH; [done |].
    intros acc0 y Hy. apply Hbody. by right.
Qed.

Lemma for_each_inv {A S} (P : S → Prop) (xs : list A) (body : S → A → res S) acc r :
  P acc →
  (∀ acc x acc', x ∈ xs → P acc → body acc x = Ret acc' → P acc') →
  for_each xs acc body = Ret r → P r.
Proof.
  revert acc. induction xs as [|x xs IH]; intros acc Hacc Hbody; simpl.
  - by intros [= <-].
  - destruct (body acc x) as [acc'|c] eqn:Hx; simpl; [|done].
    apply IH.
    + apply (Hbody acc x); [left | done | done].
    + intros acc0 y acc1 Hy. apply Hbody. by right.
Qed.

(** A loop whose body can only fail with [c] returns or fails with [c]. *)
Lemma for_each_outcome {A S} (c : abort) (xs : list A) (body : S → A → res S) acc :
  (∀ acc x, x ∈ xs → returns (body acc x) ∨ body acc x = Abort c) →
  returns (for_each xs acc body) ∨ for_each xs acc body = Abort c.
Proof.
  revert acc. induction xs as [|x xs IH]; intros acc Hbody; simpl.
  - left. by eexists.
  - destruct (Hbody acc x) as [[acc' ->]| ->]; [left | | by right].
    simpl. apply IH. intros acc0 y Hy. apply Hbody. by right.
Qed.

Lemma for_each_ext {A S} (xs : list A) (body body' : S → A → res S) acc :
  (∀ acc x, x ∈ xs → body acc x = body' acc x) →
  for_each xs acc body = for_each xs acc body'.
Proof.
  revert acc. induction xs as [|x xs IH]; intros acc Hbody; simpl; [done |].
  rewrite Hbody by left. destruct (body' acc x); simpl; [|done].
  apply IH. intros acc0 y Hy. apply Hbody. by right.
Qed.

Lemma in_range_spec sq : in_range sq = true ↔ 0 ≤ sq < 64.
Proof. unfold in_range. rewrite andb_true_iff, Z.leb_le, Z.ltb_lt. done. Qed.

Lemma elem_of_SQUARES sq : sq ∈ SQUARES ↔ 0 ≤ sq < 64.
Proof. unfold SQUARES. rewrite elem_of_seqZ. lia. Qed.

(** ** The ray loops terminate *)

Section SkewerScan.
Variables (b : Board) (piece : Piece) (file_diff rank_diff : Z).

Lemma skewer_scan_up fuel sq st :
  0 < file_diff + 8 * rank_diff → sq < 64 → 64 - sq ≤ Z.of_nat fuel →
  returns (skewer_scan fuel b piece file_diff rank_diff sq st).
Proof.
  intros Hstep. revert sq st.
  induction fuel as [|fuel IH]; intros sq st Hsq Hfuel; [lia |].
  simpl. destruct (in_range _) eqn:Hr; simpl; [|by eexists].
  apply in_range_spec in Hr.
  destruct (piece_at b _); [|apply IH; lia].
  repeat case_bool_decide; try (by eexists). apply IH; lia.
Qed.

Lemma skewer_scan_down fuel sq st :
  file_diff + 8 * rank_diff < 0 → 0 ≤ sq → sq + 1 ≤ Z.of_nat fuel →
  returns (skewer_scan fuel b piece file_diff rank_diff sq st).
Proof.
  intros Hstep. revert sq st.
  induction fuel as [|fuel IH]; intros sq st Hsq Hfuel; [lia |].
  simpl. destruct (in_range _) eqn:Hr; simpl; [|by eexists].
  apply in_range_spec in Hr.
  destruct (piece_at b _); [|apply IH; lia].
  repeat case_bool_decide; try (by eexists). apply IH; lia.
Qed.

Lemma skewer_scan_returns sq st :
  file_diff + 8 * rank_diff ≠ 0 → 0 ≤ sq < 64 →
  returns (skewer_scan ray_fuel b piece file_diff rank_diff sq st).
Proof.
  intros Hstep Hsq.
  destruct (Z.lt_total (file_diff + 8 * rank_diff) 0) as [?|[?|?]]; [|done|].
  - apply skewer_scan_down; unfold ray_fuel; lia.
  - apply skewer_scan_up; unfold ray_fuel; lia.
Qed.

Lemma skewer_scan_valued fuel sq st st' :
  Forall valued (pieces_in_line st) →
  skewer_scan fuel b piece file_diff rank_diff sq st = Ret st' →
  Forall valued (pieces_in_line st').
Proof.
  revert sq st. induction fuel as [|fuel IH]; intros sq st Hst; simpl; [done |].
  destruct (in_range _); simpl; [|by intros [= <-]].
  destruct (piece_at b _) as [tp|]; [|by apply IH].
  assert (Forall valued (pieces_in_line st ++
            [mkLinePiece (sq + file_diff + 8 * rank_diff) (piece_type tp)
                         (piece_values (piece_type tp))])) as Hline.
  { apply Forall_app. split; [done |]. by repeat constructor. }
  repeat case_bool_decide; try (by intros [= <-]). by apply IH.
Qed.

End SkewerScan.

Lemma skewer_directions_step t d :
  d ∈ skewer_directions t → d.1 + 8 * d.2 ≠ 0.
Proof.
  unfold skewer_directions. rewrite elem_of_app.
  intros [H|H]; case_bool_decide; try (by apply elem_of_nil in H);
    repeat (apply elem_of_cons in H as [->|H]; [simpl; lia |]);
    by apply elem_of_nil in H.
Qed.

(** ** Skewers: which of the two targets weighs more *)

Lemma find_skewers_from_piece_spec b sq piece :
  0 ≤ sq < 64 →
  ∃ found, find_skewers_from_piece b sq piece = Ret found
           ∧ Forall front_outweighs_back found.
Proof.
  intros Hsq. unfold find_skewers_from_piece.
  apply for_each_total; [constructor |].
  intros acc [fd rd] Hd Hacc. unfold skewer_direction_step.
  apply skewer_directions_step in Hd. simpl in Hd.
  destruct (skewer_scan_returns b piece fd rd sq (mkScan [] []) Hd Hsq) as [st Hst].
  rewrite Hst. simpl.
  apply skewer_scan_valued in Hst; [|constructor].
  destruct (pieces_in_line st) as [|front [|back [|? ?]]]; eauto.
  destruct (lp_value front >? lp_value back) eqn:Hcmp; eauto.
  eexists; split; [done |]. apply Forall_app. split; [done |].
  repeat constructor. unfold front_outweighs_back. simpl.
  apply Forall_cons in Hst as [Hf Hst]. apply Forall_cons in Hst as [Hb _].
  unfold valued in *. apply Z.gtb_lt in Hcmp. lia.
Qed.

(** C1 fails as stated: on [file_a_skewer] the skewer that is reported has
    the queen (9) in front and the rook (5) behind. *)
Lemma C1_back_target_not_heavier :
  ¬ (∀ b skewers, detect_skewers b = Ret skewers →
       ∀ s, s ∈ skewers →
         piece_values (back_target s) > piece_values (front_target s)).
Proof.
  intros H.
  specialize (H file_a_skewer
    [mkSkewer ROOK "a1" QUEEN "a4" ROOK "a8"] eq_refl
    (mkSkewer ROOK "a1" QUEEN "a4" ROOK "a8")).
  simpl in H. specialize (H ltac:(left)). lia.
Qed.

Lemma detect_skewers_spec (b : Board) :
  ∃ skewers, detect_skewers b = Ret skewers ∧ Forall front_outweighs_back skewers.
Proof.
  apply for_each_total; [constructor |].
  intros acc sq Hsq Hacc. apply elem_of_SQUARES in Hsq.
  destruct (piece_at b sq) as [piece|]; [|eauto].
  destruct (_ && _); [|eauto].
  destruct (find_skewers_from_piece_spec b sq piece Hsq) as (found & -> & Hfound).
  simpl. eexists; split; [done |]. by apply Forall_app.
Qed.

(** C1 (amended): for every board, [detect_skewers] returns, and in every
    Skewer it returns the front target is worth strictly more than the back
    target under the PieceValue table; no record has a front target worth no
    more than its back target. *)
Theorem detect_skewers_front_outweighs_back (b : Board) :
  ∃ skewers, detect_skewers b = Ret skewers
    ∧ ∀ s, s ∈ skewers →
        piece_values (front_target s) > piece_values (back_target s)
        ∧ ¬ piece_values (front_target s) ≤ piece_values (back_target s).
Proof.
  destruct (detect_skewers_spec b) as (skewers & Hrun & Hall).
  exists skewers. split; [exact Hrun |].
  intros s Hs. apply (proj1 (Forall_forall _ _) Hall) in Hs.
  unfold front_outweighs_back in Hs. lia.
Qed.

(** ** Rays cross the edge of the board *)

(** What the loops do guarantee: the squares looked at are on the board. *)
Lemma skewer_scan_visited_in_range fuel b piece fd rd sq st st' :
  Forall (λ s, 0 ≤ s < 64) (visited st) →
  skewer_scan fuel b piece fd rd sq st = Ret st' →
  Forall (λ s, 0 ≤ s < 64) (visited st').
Proof.
  revert sq st. induction fuel as [|fuel IH]; intros sq st Hst; simpl; [done |].
  destruct (in_range _) eqn:Hr; simpl; [|by intros [= <-]].
  apply in_range_spec in Hr.
  assert (Forall (λ s, 0 ≤ s < 64) (visited st ++ [sq + fd + 8 * rd])) as Hseen.
  { apply Forall_app. split; [done |]. by apply Forall_singleton. }
  destruct (piece_at b _) as [tp|]; [|by apply IH].
  repeat case_bool_decide; try (by intros [= <-]). by apply IH.
Qed.

Lemma pin_scan_visited_in_range fuel b fd rd sq seen r :
  Forall (λ s, 0 ≤ s < 64) seen →
  pin_scan fuel b fd rd sq seen = Ret r →
  Forall (λ s, 0 ≤ s < 64) r.1.
Proof.
  revert sq seen. induction fuel as [|fuel IH]; intros sq seen Hseen; simpl; [done |].
  destruct (in_range _) eqn:Hr; simpl; [|by intros [= <-]].
  apply in_range_spec in Hr.
  assert (Forall (λ s, 0 ≤ s < 64) (seen ++ [sq - fd - 8 * rd])) as Hseen'.
  { apply Forall_app. split; [done |]. by apply Forall_singleton. }
  destruct (piece_at b _) as [tp|]; [|by apply IH].
  destruct (_ && _); by intros [= <-].
Qed.

(** C2 (the code departs from it): a ray that starts on h1 (file 7, rank 0)
    with direction (1, 0) goes on to a2 (file 0, rank 1) and b2, which are
    not on the first rank, and the rook on h1 is reported to skewer the
    queen on a2 and the rook on b2; the walk of [find_pinning_piece] from e1
    away from a king on a1 runs f1, g1, h1, a2, b2 and reports the rook on
    b2 as pinning the knight on e1. *)
Theorem ray_walk_crosses_board_edge :
  (visited <$> skewer_scan ray_fuel rook_h1 wR 1 0 7 (mkScan [] [])) = Ret [8; 9]
  ∧ square_file 7 = 7 ∧ square_rank 7 = 0
  ∧ square_file 8 = 0 ∧ square_rank 8 = 1
  ∧ detect_skewers rook_h1 = Ret [mkSkewer ROOK "h1" QUEEN "a2" ROOK "b2"]
  ∧ (fst <$> pin_scan ray_fuel knight_e1 (-1) 0 4 []) = Ret [5; 6; 7; 8; 9]
  ∧ detect_pins knight_e1 = Ret [mkPin KNIGHT "e1" ROOK "b2"].
Proof. repeat split; vm_compute; reflexivity. Qed.

(** ** Pins that are no pins *)

(** A pin in the specification's sense, which the detector reports. *)
Example detect_pins_knight_e2 :
  detect_pins knight_e2 = Ret [mkPin KNIGHT (square_name 12) ROOK (square_name 60)]
  ∧ spec_is_pin knight_e2 12 60 = true.
Proof. split; vm_compute; reflexivity. Qed.

(** C4 (the code departs from it): on [knight_f3] the knight on f3 is
    reported as pinned by the bishop on g4, although f3 is not on a line
    with the king on e1: removing the knight puts no king in check. *)
Theorem detect_pins_reports_unpinned_knight :
  detect_pins knight_f3 = Ret [mkPin KNIGHT (square_name 21) BISHOP (square_name 30)]
  ∧ king knight_f3 (turn knight_f3) = Some 4
  ∧ spec_is_pin knight_f3 21 30 = false.
Proof. repeat split; vm_compute; reflexivity. Qed.

(** ** The pin detector returns when the side to move has a king *)

Section PinScan.
Variables (b : Board) (file_diff rank_diff : Z).

Lemma pin_scan_up fuel sq seen :
  0 < - file_diff - 8 * rank_diff → sq < 64 → 64 - sq ≤ Z.of_nat fuel →
  returns (pin_scan fuel b file_diff rank_diff sq seen).
Proof.
  intros Hstep. revert sq seen.
  induction fuel as [|fuel IH]; intros sq seen Hsq Hfuel; [lia |].
  simpl. destruct (in_range _) eqn:Hr; simpl; [|by eexists].
  apply in_range_spec in Hr.
  destruct (piece_at b _); [|apply IH; lia].
  destruct (_ && _); by eexists.
Qed.

Lemma pin_scan_down fuel sq seen :
  - file_diff - 8 * rank_diff < 0 → 0 ≤ sq → sq + 1 ≤ Z.of_nat fuel →
  returns (pin_scan fuel b file_diff rank_diff sq seen).
Proof.
  intros Hstep. revert sq seen.
  induction fuel as [|fuel IH]; intros sq seen Hsq Hfuel; [lia |].
  simpl. destruct (in_range _) eqn:Hr; simpl; [|by eexists].
  apply in_range_spec in Hr.
  destruct (piece_at b _); [|apply IH; lia].
  destruct (_ && _); by eexists.
Qed.

(** With a zero step the loop looks at the starting square again and again;
    it ends at once when that square is occupied. *)
Lemma pin_scan_still fuel sq seen :
  - file_diff - 8 * rank_diff = 0 → 0 ≤ sq < 64 → is_Some (piece_at b sq) →
  returns (pin_scan (S fuel) b file_diff rank_diff sq seen).
Proof.
  intros Hstep Hsq [p Hp]. simpl.
  replace (sq - file_diff - 8 * rank_diff) with sq by lia.
  rewrite (proj2 (in_range_spec sq) Hsq), Hp. simpl.
  destruct (_ && _); by eexists.
Qed.

Lemma pin_scan_returns sq seen :
  0 ≤ sq < 64 → is_Some (piece_at b sq) →
  returns (pin_scan ray_fuel b file_diff rank_diff sq seen).
Proof.
  intros Hsq Hp.
  destruct (Z.lt_total (- file_diff - 8 * rank_diff) 0) as [?|[?|?]].
  - apply pin_scan_down; unfold ray_fuel; lia.
  - by apply pin_scan_still.
  - apply pin_scan_up; unfold ray_fuel; lia.
Qed.

End PinScan.

(** The one way the loop of [find_pinning_piece] does not end: asked about
    an empty square that is also given as the king's, it stands still.  The
    detector never asks this: it only asks about occupied squares. *)
Lemma pin_scan_stands_still b sq fuel seen :
  0 ≤ sq < 64 → piece_at b sq = None →
  pin_scan fuel b 0 0 sq seen = Abort OutOfFuel.
Proof.
  intros Hsq Hp. revert seen. induction fuel as [|fuel IH]; intros seen; simpl; [done |].
  replace (sq - 0 - 8 * 0) with sq by lia.
  rewrite (proj2 (in_range_spec sq) Hsq), Hp. simpl. apply IH.
Qed.

Lemma normalize_sgn d : normalize d = Z.sgn d.
Proof.
  unfold normalize. case_bool_decide as Hd; [|by assert (d = 0) as -> by lia].
  destruct (Z.lt_total d 0) as [?|[?|?]]; [|done|].
  - rewrite Z.abs_neq, Z.sgn_neg by lia.
    symmetry. apply Z.div_unique_exact; lia.
  - rewrite Z.abs_eq, Z.sgn_pos by lia. apply Z.div_same. lia.
Qed.

Lemma find_pinning_piece_returns b sq king_sq :
  0 ≤ sq < 64 → is_Some (piece_at b sq) →
  returns (find_pinning_piece b sq (Some king_sq)).
Proof.
  intros Hsq Hp. unfold find_pinning_piece.
  destruct (pin_scan_returns b
    (normalize (square_file king_sq - square_file sq))
    (normalize (square_rank king_sq - square_rank sq)) sq [] Hsq Hp) as [r ->].
  by eexists.
Qed.

Lemma king_Some b c k :
  king b c = Some k → 0 ≤ k < 64 ∧ is_king_of b c k = true.
Proof.
  unfold king. intros Hk. apply head_Some_elem_of in Hk.
  apply list_elem_of_filter in Hk as [Hking Hin].
  apply elem_of_reverse, elem_of_SQUARES in Hin. done.
Qed.

Lemma king_is_Some b c :
  is_Some (king b c) ↔ ∃ k, 0 ≤ k < 64 ∧ is_king_of b c k = true.
Proof.
  split.
  - intros [k Hk]. exists k. by apply king_Some.
  - intros (k & Hk & Hking). unfold king.
    destruct (filter _ _) as [|x l] eqn:Hf; [|by eexists].
    assert (k ∈ filter (λ s, is_king_of b c s = true) (reverse SQUARES)) as Hin.
    { apply list_elem_of_filter. split; [done |].
      by apply elem_of_reverse, elem_of_SQUARES. }
    rewrite Hf in Hin. by apply elem_of_nil in Hin.
Qed.

Lemma detect_pins_returns b :
  is_Some (king b (turn b)) → returns (detect_pins b).
Proof.
  intros [k Hk]. unfold detect_pins. rewrite Hk.
  destruct (for_each_total (λ _, True) SQUARES
    (λ pins square,
      if negb (Z.land (pin_mask b (turn b) (Some k)) (BB_SQUARES square) =? 0) then
        match piece_at b square with
        | Some piece =>
          if bool_decide (color piece = turn b) then
            pinning_piece ← find_pinning_piece b square (Some k);
            match pinning_piece with
            | Some pp =>
              Ret (pins ++ [mkPin (piece_type piece) (square_name square)
                                  (pp_piece_type pp) (pp_square pp)])
            | None => Ret pins
            end
          else Ret pins
        | None => Ret pins
        end
      else Ret pins) []) as (pins & Hrun & _); [done | | by exists pins].
  intros acc sq Hsq _. apply elem_of_SQUARES in Hsq.
  destruct (negb _); [|eauto].
  destruct (piece_at b sq) as [piece|] eqn:Hp; [|eauto].
  case_bool_decide; [|eauto].
  destruct (find_pinning_piece_returns b sq k Hsq) as [[pp|] ->]; simpl; eauto.
Qed.

(** Without a king for the side to move the detector raises as soon as it
    meets a piece of that side; it never runs out of fuel. *)
Lemma detect_pins_outcome b :
  returns (detect_pins b) ∨ detect_pins b = Raise TypeError.
Proof.
  destruct (king b (turn b)) as [k|] eqn:Hk.
  - left. apply detect_pins_returns. by eexists.
  - unfold detect_pins. rewrite Hk. apply for_each_outcome.
    intros acc sq _. destruct (negb _); [|left; by eexists].
    destruct (piece_at b sq); [|left; by eexists].
    case_bool_decide; [by right | left; by eexists].
Qed.

(** The mask the detector computes filters nothing: the square it asks
    about is the king's own, which is on none of the king's rays. *)
Lemma empty_rays_off_king kind k :
  0 ≤ k < 64 → Z.land (empty_rays kind k) (BB_SQUARES k) = 0.
Proof.
  intros Hk. apply elem_of_SQUARES in Hk.
  assert (Forall (λ k, ∀ kind, Z.land (empty_rays kind k) (BB_SQUARES k) = 0) SQUARES)
    as Hall.
  { apply Forall_forall. intros k' Hk'.
    repeat (apply elem_of_cons in Hk' as [->|Hk'];
            [intros []; vm_compute; reflexivity |]).
    by apply elem_of_nil in Hk'. }
  by apply (proj1 (Forall_forall _ _) Hall).
Qed.

Lemma pin_mask_of_king b c : pin_mask b c (king b c) = BB_ALL.
Proof.
  unfold pin_mask. destruct (king b c) as [k|] eqn:Hk; [|done].
  apply king_Some in Hk as [Hk _].
  unfold pin_mask_on. rewrite !empty_rays_off_king by done. done.
Qed.

(** ** Running the methods *)

Section Sequencing.
Context `{eng : Engine}.

Lemma bind_ret {A B} (m : M A) (k : A → M B) w a w' :
  m w = (Ret a, w') → (m ≫= k) w = k a w'.
Proof. unfold mbind, M_bind_inst, M_bind. by intros ->. Qed.

Lemma bind_abort {A B} (m : M A) (k : A → M B) w c w' :
  m w = (Abort c, w') → (m ≫= k) w = (Abort c, w').
Proof. unfold mbind, M_bind_inst, M_bind. by intros ->. Qed.

End Sequencing.

(** [run H] steps over the first call of a sequence, [H] saying how that
    call ends; [stop H] is for a call that does not return. *)
Tactic Notation "run" uconstr(H) := rewrite !(bind_ret _ _ _ _ _ H).
Tactic Notation "stop" uconstr(H) := rewrite !(bind_abort _ _ _ _ _ H).

Section Running.
Context `{rules : Rules} `{eng : Engine}.

Lemma board_at_eq l w b : heap w !! l = Some b → board_at l w = (Ret b, w).
Proof. unfold board_at. by intros ->. Qed.

Lemma new_board_eq b w : new_board b w = (Ret (fresh (dom (heap w))), alloc w b).
Proof. done. Qed.

Lemma fresh_loc_unused w : heap w !! fresh (dom (heap w)) = None.
Proof. apply not_elem_of_dom, is_fresh. Qed.

Lemma alloc_new w b : heap (alloc w b) !! fresh (dom (heap w)) = Some b.
Proof. apply lookup_insert_eq. Qed.

Lemma alloc_subseteq w b : heap w ⊆ heap (alloc w b).
Proof. apply insert_subseteq, fresh_loc_unused. Qed.

Lemma alloc_old w b0 l b : heap w !! l = Some b → heap (alloc w b0) !! l = Some b.
Proof. intros Hl. by apply (lookup_weaken _ _ _ _ Hl), alloc_subseteq. Qed.

Lemma copy_eq l w b :
  heap w !! l = Some b → copy l w = (Ret (fresh (dom (heap w))), alloc w b).
Proof. intros Hl. unfold copy. by run (board_at_eq _ _ _ Hl). Qed.

Lemma push_at_eq l w b m b' :
  heap w !! l = Some b → push b m = Some b' →
  push_at l m w = (Ret (), mkWorld (<[l := b']> (heap w)) (engine w) (oracle_log w)).
Proof. unfold push_at. by intros -> ->. Qed.

Lemma push_at_fails l w b m :
  heap w !! l = Some b → push b m = None →
  push_at l m w = (Raise AssertionError, w).
Proof. unfold push_at. by intros -> ->. Qed.

(** Copying a board and pushing a move on the copy. *)
Lemma copy_push_eq l w b m b' :
  heap w !! l = Some b → push b m = Some b' →
  (board_copy ← copy l; push_at board_copy m;; mret board_copy) w
  = (Ret (fresh (dom (heap w))), alloc w b').
Proof.
  intros Hl Hpush.
  run (copy_eq _ _ _ Hl).
  run (push_at_eq _ _ _ _ _ (alloc_new _ _) Hpush).
  unfold alloc. simpl. by rewrite insert_insert_eq.
Qed.

Lemma detect_pins_on_eq l w b :
  heap w !! l = Some b → detect_pins_on l w = (detect_pins b, w).
Proof. intros Hl. unfold detect_pins_on. by run (board_at_eq _ _ _ Hl). Qed.

Lemma detect_skewers_on_eq l w b :
  heap w !! l = Some b → detect_skewers_on l w = (detect_skewers b, w).
Proof. intros Hl. unfold detect_skewers_on. by run (board_at_eq _ _ _ Hl). Qed.

(** The evaluator on a board object holding [b]: a new object is created
    for the position after the move, and the tactics of that position are
    returned. *)
Lemma move_creates_pin_or_skewer_eq l w b m b' :
  heap w !! l = Some b → push b m = Some b' →
  move_creates_pin_or_skewer l m w = (position_tactics b', alloc w b').
Proof.
  intros Hl Hpush. unfold move_creates_pin_or_skewer.
  run (copy_eq _ _ _ Hl).
  run (push_at_eq _ _ _ _ _ (alloc_new _ _) Hpush).
  replace (mkWorld _ _ _) with (alloc w b')
    by (unfold alloc; simpl; by rewrite insert_insert_eq).
  pose proof (detect_pins_on_eq _ _ b' (alloc_new w b')) as Hpins.
  pose proof (detect_skewers_on_eq _ _ b' (alloc_new w b')) as Hskewers.
  unfold position_tactics.
  destruct (detect_pins b') as [pins|c].
  - run Hpins.
    destruct (detect_skewers b') as [skewers|c].
    + by run Hskewers.
    + by stop Hskewers.
  - by stop Hpins.
Qed.

Lemma move_creates_pin_or_skewer_fails l w b m :
  heap w !! l = Some b → push b m = None →
  move_creates_pin_or_skewer l m w = (Raise AssertionError, alloc w b).
Proof.
  intros Hl Hpush. unfold move_creates_pin_or_skewer.
  run (copy_eq _ _ _ Hl).
  by stop (push_at_fails _ _ _ _ (alloc_new _ _) Hpush).
Qed.

Lemma move_creates_pin_or_skewer_dangling l w m :
  heap w !! l = None →
  move_creates_pin_or_skewer l m w = (Abort NoSuchObject, w).
Proof.
  intros Hl. unfold move_creates_pin_or_skewer, copy, board_at.
  unfold mbind, M_bind_inst, M_bind. by rewrite Hl.
Qed.

Lemma get_best_move_eq l w b :
  heap w !! l = Some b →
  get_best_move l w = (Ret (recommend (engine w) b), queried w b).
Proof.
  intros Hl. unfold get_best_move, queried, recommend, engine_after. rewrite Hl.
  destruct (engine w) as [e|]; [|done]. by destruct (analyse e b).
Qed.

Lemma heap_queried w b : heap (queried w b) = heap w.
Proof. unfold queried. by destruct (engine w). Qed.

Lemma engine_queried w b : engine (queried w b) = engine_after (engine w) b.
Proof. unfold queried, engine_after. by destruct (engine w) eqn:He. Qed.

End Running.

(** ** Whose pieces the records name *)

Lemma negb_color (c c' : Color) : c ≠ c' → c = negb c'.
Proof. by destruct c, c'. Qed.

Lemma pin_scan_pinner fuel b fd rd sq seen r pp :
  pin_scan fuel b fd rd sq seen = Ret r → r.2 = Some pp →
  names_piece b (pp_square pp) (pp_piece_type pp) (negb (turn b)).
Proof.
  revert sq seen. induction fuel as [|fuel IH]; intros sq seen; simpl; [done |].
  destruct (in_range _) eqn:Hr; simpl; [|by intros [= <-]].
  apply in_range_spec in Hr.
  destruct (piece_at b _) as [q|] eqn:Hq; [|by apply IH].
  destruct (bool_decide _) eqn:Hc; simpl; [|by intros [= <-]].
  apply bool_decide_eq_true in Hc.
  destruct (can_piece_pin _ _ _); intros [= <-]; [|done].
  intros [= <-]. exists (sq - fd - 8 * rd), q. simpl.
  repeat split; try done; try lia. by apply negb_color.
Qed.

Lemma detect_pins_sides b pins :
  detect_pins b = Ret pins → Forall (pin_sides b) pins.
Proof.
  unfold detect_pins. apply for_each_inv; [constructor |].
  intros acc sq acc' Hsq Hacc. apply elem_of_SQUARES in Hsq.
  destruct (negb _); [|by intros [= <-]].
  destruct (piece_at b sq) as [piece|] eqn:Hp; [|by intros [= <-]].
  case_bool_decide as Hc; [|by intros [= <-]].
  unfold find_pinning_piece. destruct (king b (turn b)) as [k|]; [|done].
  destruct (pin_scan _ _ _ _ _ _) as [r|c] eqn:Hscan; [|done]. simpl.
  destruct (r.2) as [pp|] eqn:Hpp; intros [= <-]; [|done].
  apply Forall_app. split; [done |]. apply Forall_singleton. split; simpl.
  - by exists sq, piece.
  - by eapply pin_scan_pinner.
Qed.

Lemma skewer_scan_line fuel b piece fd rd sq st st' :
  Forall (line_piece_of b (color piece)) (pieces_in_line st) →
  skewer_scan fuel b piece fd rd sq st = Ret st' →
  Forall (line_piece_of b (color piece)) (pieces_in_line st').
Proof.
  revert sq st. induction fuel as [|fuel IH]; intros sq st Hst; simpl; [done |].
  destruct (in_range _) eqn:Hr; simpl; [|by intros [= <-]].
  apply in_range_spec in Hr.
  destruct (piece_at b _) as [tp|] eqn:Htp; [|by apply IH].
  case_bool_decide as Hc; [|by intros [= <-]].
  assert (Forall (line_piece_of b (color piece)) (pieces_in_line st ++
            [mkLinePiece (sq + fd + 8 * rd) (piece_type tp)
                         (piece_values (piece_type tp))])) as Hline.
  { apply Forall_app. split; [done |]. apply Forall_singleton.
    exists tp. simpl. repeat split; try done; try lia. by apply negb_color. }
  case_bool_decide; [by intros [= <-] | by apply IH].
Qed.

Lemma detect_skewers_sides b skewers :
  detect_skewers b = Ret skewers → Forall (skewer_sides b) skewers.
Proof.
  unfold detect_skewers. apply for_each_inv; [constructor |].
  intros acc sq acc' Hsq Hacc. apply elem_of_SQUARES in Hsq.
  destruct (piece_at b sq) as [piece|] eqn:Hp; [|by intros [= <-]].
  destruct (bool_decide (color piece = turn b)) eqn:Hc; simpl; [|by intros [= <-]].
  apply bool_decide_eq_true in Hc.
  destruct (bool_decide _); [|by intros [= <-]].
  destruct (find_skewers_from_piece b sq piece) as [found|c] eqn:Hfound; [|done].
  intros [= <-]. apply Forall_app. split; [done |].
  revert Hfound. unfold find_skewers_from_piece.
  apply for_each_inv; [constructor |].
  intros found0 [fd rd] found1 _ Hfound0. unfold skewer_direction_step.
  destruct (skewer_scan _ _ _ _ _ _ _) as [st|c] eqn:Hscan; [|done]. simpl.
  apply skewer_scan_line in Hscan; [|constructor].
  destruct (pieces_in_line st) as [|front [|back [|? ?]]]; try (by intros [= <-]).
  destruct (_ >? _); intros [= <-]; [|done].
  apply Forall_app. split; [done |]. apply Forall_singleton.
  apply Forall_cons in Hscan as [(pf & ? & ? & ? & Hcf) Hscan].
  apply Forall_cons in Hscan as [(pb & ? & ? & ? & Hcb) _].
  rewrite Hc in Hcf, Hcb.
  split; [|split]; simpl.
  - by exists sq, piece.
  - by exists (lp_square front), pf.
  - by exists (lp_square back), pb.
Qed.

(** ** The evaluator leaves its input alone *)

Section Evaluator.
Context `{rules : Rules} `{eng : Engine}.

Lemma move_creates_pin_or_skewer_frame l m w :
  heap w ⊆ heap (move_creates_pin_or_skewer l m w).2.
Proof.
  destruct (heap w !! l) as [b|] eqn:Hl.
  - destruct (push b m) as [b'|] eqn:Hpush.
    + rewrite (move_creates_pin_or_skewer_eq _ _ _ _ _ Hl Hpush). apply alloc_subseteq.
    + rewrite (move_creates_pin_or_skewer_fails _ _ _ _ Hl Hpush). apply alloc_subseteq.
  - by rewrite (move_creates_pin_or_skewer_dangling _ _ _ Hl).
Qed.

(** What the evaluator returns is read off the position after the move, for
    the side to move there: the pinning pieces are not of that side, the
    attacking pieces of the skewers are. *)
Lemma move_creates_pin_or_skewer_sides l m w b b' tactics :
  heap w !! l = Some b → push b m = Some b' →
  (move_creates_pin_or_skewer l m w).1 = Ret tactics →
  Forall (tactic_sides b') tactics.
Proof.
  intros Hl Hpush. rewrite (move_creates_pin_or_skewer_eq _ _ _ _ _ Hl Hpush).
  unfold position_tactics. simpl.
  destruct (detect_pins b') as [pins|] eqn:Hpins; [|done].
  destruct (detect_skewers b') as [skewers|] eqn:Hskewers; [|done].
  intros [= <-]. apply Forall_app. split; apply Forall_fmap.
  - by apply detect_pins_sides.
  - by apply detect_skewers_sides.
Qed.

(** C7: whatever the move and however the call ends, the board object
    handed to [move_creates_pin_or_skewer] holds the same state after the
    call as before it, so piece placement, side to move and king squares
    answer as before. *)
Theorem move_creates_pin_or_skewer_keeps_input l m w b :
  heap w !! l = Some b →
  ∃ b_after,
    heap (move_creates_pin_or_skewer l m w).2 !! l = Some b_after
    ∧ b_after = b
    ∧ (∀ sq, piece_at b_after sq = piece_at b sq)
    ∧ turn b_after = turn b
    ∧ (∀ c, king b_after c = king b c).
Proof.
  intros Hl. exists b. split; [|done].
  apply (lookup_weaken _ _ _ _ Hl), move_creates_pin_or_skewer_frame.
Qed.

(** C10: with no played move the position analyzer returns three empty
    lists and leaves the world as it was: no board is created or pushed
    to, and nothing is sent to the engine. *)
Theorem analyze_position_without_move l w :
  analyze_position l None w = (Ret (mkPositionResult [] [] []), w)
  ∧ oracle_log (analyze_position l None w).2 = oracle_log w
  ∧ heap (analyze_position l None w).2 = heap w.
Proof. done. Qed.

End Evaluator.

(** ** The detectors are functions of the snapshot *)

Lemma pin_scan_ext b1 b2 fuel fd rd sq seen :
  (∀ s, piece_at b1 s = piece_at b2 s) → turn b1 = turn b2 →
  pin_scan fuel b1 fd rd sq seen = pin_scan fuel b2 fd rd sq seen.
Proof.
  intros Hp Ht. revert sq seen.
  induction fuel as [|fuel IH]; intros sq seen; simpl; [done |].
  rewrite Hp, Ht. destruct (in_range _); simpl; [|done].
  by destruct (piece_at b2 _).
Qed.

Lemma skewer_scan_ext b1 b2 fuel piece fd rd sq st :
  (∀ s, piece_at b1 s = piece_at b2 s) →
  skewer_scan fuel b1 piece fd rd sq st = skewer_scan fuel b2 piece fd rd sq st.
Proof.
  intros Hp. revert sq st.
  induction fuel as [|fuel IH]; intros sq st; simpl; [done |].
  rewrite Hp. destruct (in_range _); simpl; [|done].
  destruct (piece_at b2 _); [|done].
  by repeat case_bool_decide.
Qed.

Lemma detect_pins_ext b1 b2 :
  (∀ s, piece_at b1 s = piece_at b2 s) → turn b1 = turn b2 →
  king b1 (turn b1) = king b2 (turn b2) →
  detect_pins b1 = detect_pins b2.
Proof.
  intros Hp Ht Hk. unfold detect_pins.
  rewrite !pin_mask_of_king. apply for_each_ext. intros acc sq _.
  rewrite Hp, Hk, Ht. destruct (negb _); [|done].
  destruct (piece_at b2 sq); [|done]. case_bool_decide; [|done].
  unfold find_pinning_piece. destruct (king b2 (turn b2)); [|done].
  by rewrite (pin_scan_ext b1 b2).
Qed.

Lemma detect_skewers_ext b1 b2 :
  (∀ s, piece_at b1 s = piece_at b2 s) → turn b1 = turn b2 →
  detect_skewers b1 = detect_skewers b2.
Proof.
  intros Hp Ht. unfold detect_skewers. apply for_each_ext. intros acc sq _.
  rewrite Hp, Ht. destruct (piece_at b2 sq) as [piece|]; [|done].
  destruct (_ && _); [|done].
  unfold find_skewers_from_piece.
  rewrite (for_each_ext _ (skewer_direction_step b1 sq piece)
                          (skewer_direction_step b2 sq piece)); [done |].
  intros skewers [fd rd] _. unfold skewer_direction_step.
  by rewrite (skewer_scan_ext b1 b2).
Qed.

Section Determinism.
Context `{eng : Engine}.

(** C8: a detector run on a board object leaves the world as it found it,
    so a second run right after the first returns the same list in the same
    order (or ends the same way); and the outcome depends on the snapshot
    alone: two boards that answer [piece_at], [turn] and [king] alike get
    the same list from either detector. *)
Theorem detectors_deterministic l w :
  (detect_pins_on l w).2 = w
  ∧ detect_pins_on l (detect_pins_on l w).2 = detect_pins_on l w
  ∧ (detect_skewers_on l w).2 = w
  ∧ detect_skewers_on l (detect_skewers_on l w).2 = detect_skewers_on l w
  ∧ ∀ b1 b2,
      (∀ sq, piece_at b1 sq = piece_at b2 sq) → turn b1 = turn b2 →
      king b1 (turn b1) = king b2 (turn b2) →
      detect_pins b1 = detect_pins b2 ∧ detect_skewers b1 = detect_skewers b2.
Proof.
  assert ((detect_pins_on l w).2 = w) as Hpins.
  { unfold detect_pins_on, board_at, mbind, M_bind_inst, M_bind.
    by destruct (heap w !! l). }
  assert ((detect_skewers_on l w).2 = w) as Hskewers.
  { unfold detect_skewers_on, board_at, mbind, M_bind_inst, M_bind.
    by destruct (heap w !! l). }
  rewrite Hpins, Hskewers. repeat split; try done.
  - by apply detect_pins_ext.
  - by apply detect_skewers_ext.
Qed.

End Determinism.

(** ** The position analyzer *)

Lemma position_tactics_returns b :
  is_Some (king b (turn b)) → returns (position_tactics b).
Proof.
  intros Hk. unfold position_tactics.
  destruct (detect_pins_returns b Hk) as [pins ->].
  destruct (detect_skewers_spec b) as (skewers & -> & _).
  by eexists.
Qed.

Section Position.
Context `{rules : Rules} `{eng : Engine} (valid : Board → Prop) `{!Lawful valid}.

(** The evaluator returns on a legal move of a standard position. *)
Lemma move_creates_pin_or_skewer_returns l w b m :
  heap w !! l = Some b → valid b → is_legal b m = true →
  ∃ b' tactics,
    push b m = Some b' ∧ valid b' ∧ position_tactics b' = Ret tactics
    ∧ move_creates_pin_or_skewer l m w = (Ret tactics, alloc w b').
Proof.
  intros Hl Hv Hlegal.
  destruct (legal_push b m Hv Hlegal) as (b' & Hpush & Hv').
  destruct (position_tactics_returns b' (valid_king b' Hv')) as [tactics Ht].
  exists b', tactics. repeat split; try done.
  by rewrite (move_creates_pin_or_skewer_eq _ _ _ _ _ Hl Hpush), Ht.
Qed.

Lemma analyze_position_spec l w b m :
  heap w !! l = Some b → valid b → is_legal b m = true →
  ∃ b' r w',
    push b m = Some b'
    ∧ analyze_position l (Some m) w = (Ret r, w')
    ∧ heap w ⊆ heap w'
    ∧ position_tactics b' = Ret (executed r)
    ∧ (recommend (engine w) b = None → missed r = [])
    ∧ (recommend (engine_after (engine w) b) b' = None → allowed r = []).
Proof.
  intros Hl Hv Hlegal. pose proof (legal_not_null b m Hlegal) as Hm.
  unfold analyze_position. rewrite Hm. cbn [negb]. cbv zeta.
  run (get_best_move_eq _ _ _ Hl).
  pose proof (heap_queried w b) as Hheap1.
  pose proof (engine_queried w b) as Heng1.
  set (w1 := queried w b) in *.
  assert (heap w1 !! l = Some b) as Hl1 by (by rewrite Hheap1).
  destruct (move_creates_pin_or_skewer_returns l w1 b m Hl1 Hv Hlegal)
    as (b' & played & Hpush & Hv' & Hplayed & Hrun).
  run Hrun. clear Hrun.
  exists b'. cbn [executed missed allowed app].
  (* the recommended move *)
  assert (∃ r2 w2,
    (if opt_move_bool (recommend (engine w) b)
        && bool_decide (recommend (engine w) b ≠ Some m)
     then
       match recommend (engine w) b with
       | Some best_move =>
         best_move_tactics ← move_creates_pin_or_skewer l best_move;
         mret (mkPositionResult played ([] ++ best_move_tactics) [])
       | None => mret (mkPositionResult played [] [])
       end
     else mret (mkPositionResult played [] [])) (alloc w1 b') = (Ret r2, w2)
    ∧ heap w ⊆ heap w2 ∧ engine w2 = engine w1
    ∧ executed r2 = played ∧ allowed r2 = []
    ∧ (recommend (engine w) b = None → missed r2 = [])) as (r2 & w2 & Hrun & Hsub2 & Heng2 & He2 & Ha2 & Hm2).
  { assert (heap w ⊆ heap (alloc w1 b')) as Hsub
      by (etrans; [|apply alloc_subseteq]; by rewrite Hheap1).
    destruct (recommend (engine w) b) as [best|] eqn:Hbest; simpl;
      [|by eexists _, _].
    destruct (move_bool best) eqn:Hbm; simpl; [|by eexists _, _].
    case_bool_decide; [|by eexists _, _].
    assert (is_legal b best = true) as Hbl.
    { unfold recommend in Hbest. destruct (engine w) as [e|]; [|done].
      by apply (engine_legal e). }
    destruct (move_creates_pin_or_skewer_returns l (alloc w1 b') b best
                (alloc_old _ _ _ _ Hl1) Hv Hbl)
      as (bb & tactics & _ & _ & _ & Hrun).
    run Hrun.
    eexists _, _. split; [done |]. repeat split; try done.
    etrans; [exact Hsub | apply alloc_subseteq]. }
  run Hrun. clear Hrun.
  (* the position after the played move *)
  assert (heap w2 !! l = Some b) as Hl2 by (by apply (lookup_weaken _ _ _ _ Hl)).
  run (copy_eq _ _ _ Hl2).
  run (push_at_eq _ _ _ _ _ (alloc_new _ _) Hpush).
  replace (mkWorld _ _ _) with (alloc w2 b')
    by (unfold alloc; simpl; by rewrite insert_insert_eq).
  run (board_at_eq _ _ _ (alloc_new w2 b')).
  assert (heap w ⊆ heap (alloc w2 b')) as Hsub3
    by (etrans; [exact Hsub2 | apply alloc_subseteq]).
  destruct (is_game_over b'); cbn [negb].
  { exists r2, (alloc w2 b'). rewrite He2. by repeat split. }
  run (get_best_move_eq _ _ _ (alloc_new w2 b')).
  replace (engine (alloc w2 b')) with (engine_after (engine w) b)
    by (by rewrite <- Heng1, <- Heng2).
  assert (heap w ⊆ heap (queried (alloc w2 b') b')) as Hsub4
    by (by rewrite heap_queried).
  destruct (recommend (engine_after (engine w) b) b') as [reply|] eqn:Hreply;
    [|exists r2; eexists; rewrite He2; by repeat split].
  destruct (move_bool reply) eqn:Hrm;
    [|exists r2; eexists; rewrite He2; by repeat split].
  assert (is_legal b' reply = true) as Hrl.
  { unfold recommend, engine_after in Hreply. destruct (engine w) as [e|]; [|done].
    by apply (engine_legal (analyse e b).2). }
  assert (heap (queried (alloc w2 b') b') !! fresh (dom (heap w2)) = Some b') as Hl4
    by (rewrite heap_queried; apply alloc_new).
  destruct (move_creates_pin_or_skewer_returns _ _ b' reply Hl4 Hv' Hrl)
    as (br & tactics & _ & _ & _ & Hrun).
  run Hrun.
  eexists _, _. split; [done |]. split; [done |]. cbn [executed missed allowed].
  rewrite He2. repeat split; try done.
  etrans; [exact Hsub4 | apply alloc_subseteq].
Qed.

(** C6: on a standard position and a legal played move, the position
    analyzer returns; its [executed] list is the pins and skewers of the
    position after the played move; when the engine gives no recommendation
    (an error, no ['pv'], an empty one) for the position before the move,
    [missed] is empty; and when it gives none for the position after the
    move, [allowed] is empty. *)
Theorem analyze_position_without_recommendation l w b m :
  heap w !! l = Some b → valid b → is_legal b m = true →
  ∃ b' r w',
    push b m = Some b'
    ∧ analyze_position l (Some m) w = (Ret r, w')
    ∧ position_tactics b' = Ret (executed r)
    ∧ (recommend (engine w) b = None → missed r = [])
    ∧ (recommend (engine_after (engine w) b) b' = None → allowed r = []).
Proof.
  intros Hl Hv Hlegal.
  destruct (analyze_position_spec l w b m Hl Hv Hlegal)
    as (b' & r & w' & ? & ? & _ & ? & ? & ?).
  by exists b', r, w'.
Qed.

End Position.

(** ** The game analyzer *)

Section GameAnalyzer.
Context `{rules : Rules} `{eng : Engine} (valid : Board → Prop) `{!Lawful valid}.

Lemma analyze_position_returns l w b m :
  heap w !! l = Some b → valid b → is_legal b m = true →
  ∃ r w', analyze_position l (Some m) w = (Ret r, w') ∧ heap w ⊆ heap w'.
Proof.
  intros Hl Hv Hlegal.
  destruct (analyze_position_spec valid l w b m Hl Hv Hlegal)
    as (b' & r & w' & _ & Hrun & Hsub & _).
  by exists r, w'.
Qed.

End GameAnalyzer.

(** ** The PGN analyzer *)

Section PgnAnalyzer.
Context `{rules : Rules} `{eng : Engine}.

Lemma pgn_loop_done game_count results pgn_file w :
  5 ≤ game_count → pgn_loop pgn_file game_count results w = (Ret results, w).
Proof.
  intros Hc. destruct pgn_file; simpl;
    by rewrite (proj2 (Z.ltb_ge game_count 5)) by lia.
Qed.

(** Only the games the counter leaves room for are read. *)
Lemma pgn_loop_take pgn_file :
  ∀ game_count results w,
    pgn_loop pgn_file game_count results w
    = pgn_loop (take (Z.to_nat (5 - game_count)) pgn_file) game_count results w.
Proof.
  induction pgn_file as [|game pgn_file IH]; intros c results w.
  - by rewrite take_nil.
  - destruct (Z.ltb_spec c 5) as [Hc|Hc]; [|by rewrite !pgn_loop_done].
    replace (Z.to_nat (5 - c)) with (S (Z.to_nat (5 - (c + 1)))) by lia.
    simpl. rewrite (proj2 (Z.ltb_lt c 5)) by done.
    unfold mbind, M_bind_inst, M_bind.
    destruct (analyze_game game w) as [[game_result|abort] w1]; [|done].
    apply IH.
Qed.

Lemma pgn_loop_keys pgn_file :
  ∀ game_count results w r w',
    0 ≤ game_count →
    pgn_loop pgn_file game_count results w = (Ret r, w') →
    dom results ⊆ game_keys → dom r ⊆ game_keys.
Proof.
  induction pgn_file as [|game pgn_file IH]; intros c results w r w' Hc0 Hrun Hdom.
  - simpl in Hrun. destruct (c <? 5); by injection Hrun as <- <-.
  - destruct (Z.ltb_spec c 5) as [Hc|Hc];
      [|rewrite pgn_loop_done in Hrun by done; by injection Hrun as <- <-].
    simpl in Hrun. rewrite (proj2 (Z.ltb_lt c 5)) in Hrun by done.
    unfold mbind, M_bind_inst, M_bind in Hrun.
    destruct (analyze_game game w) as [[game_result|abort] w1]; [|done].
    eapply IH; [|exact Hrun|]; [lia |].
    rewrite dom_insert_L. apply union_subseteq. split; [|done].
    apply singleton_subseteq_l, elem_of_list_to_set, list_elem_of_fmap.
    exists (c + 1). split; [done |]. rewrite !elem_of_cons. lia.
Qed.

Lemma pgn_loop_files disk pgn_file_path w r w' :
  analyze_pgn_file disk pgn_file_path w = (Ret r, w') →
  r = ∅ ∨ ∃ pgn_file, disk !! pgn_file_path = Some pgn_file
                      ∧ pgn_loop pgn_file 0 ∅ w = (Ret r, w').
Proof.
  unfold analyze_pgn_file, try_except, open, mbind, M_bind_inst, M_bind.
  destruct (disk !! pgn_file_path) as [pgn_file|]; simpl.
  - destruct (pgn_loop pgn_file 0 ∅ w) as [[r0|[e| |]] w0] eqn:Hloop;
      intros [= <- <-]; eauto.
  - intros [= <- <-]. by left.
Qed.

(** C9: [analyze_pgn_file] does the same, and ends in the same world, on a
    disk whose files are cut after their fifth game: later games are never
    read or analyzed.  The dictionary it returns has its keys among
    [game_1] .. [game_5], hence at most five entries. *)
Theorem analyze_pgn_file_first_five disk pgn_file_path w :
  analyze_pgn_file disk pgn_file_path w
  = analyze_pgn_file (take 5 <$> disk) pgn_file_path w
  ∧ ∀ results w',
      analyze_pgn_file disk pgn_file_path w = (Ret results, w') →
      dom results ⊆ game_keys ∧ (size results ≤ 5)%nat.
Proof.
  split.
  - unfold analyze_pgn_file, try_except, open. rewrite lookup_fmap.
    destruct (disk !! pgn_file_path) as [pgn_file|]; simpl; [|done].
    unfold mbind, M_bind_inst, M_bind, mret, M_ret_inst, M_ret.
    by rewrite (pgn_loop_take pgn_file 0 ∅ w).
  - intros results w' Hrun.
    assert (dom results ⊆ game_keys) as Hdom.
    { apply pgn_loop_files in Hrun as [->|(pgn_file & _ & Hloop)].
      - rewrite dom_empty_L. apply empty_subseteq.
      - eapply pgn_loop_keys; [|exact Hloop|]; [lia |].
        rewrite dom_empty_L. apply empty_subseteq. }
    split; [done |].
    rewrite <- size_dom. etrans; [apply (subseteq_size _ _ Hdom) |].
    by vm_compute.
Qed.

End PgnAnalyzer.

(** ** The analyzers on [plain_rules] and [counting_engine] *)

Section Plain.
#[local] Existing Instance plain_rules.
#[local] Existing Instance counting_engine.

Lemma plain_legal_spec b m :
  plain_legal b m = true →
  ∃ p, piece_at b (from_square m) = Some p
       ∧ 0 ≤ to_square m < 64
       ∧ ∀ q, piece_at b (to_square m) = Some q → piece_type q ≠ KING.
Proof.
  unfold plain_legal. rewrite !andb_true_iff.
  intros [[[[_ Hto] _] _] Hp]. apply in_range_spec in Hto.
  destruct (piece_at b (from_square m)) as [p|]; [|done].
  exists p. repeat split; try lia.
  intros q Hq. rewrite Hq, !andb_true_iff in Hp.
  destruct Hp as [_ [_ Hking]]. by apply bool_decide_eq_true in Hking.
Qed.

Lemma plain_push_valid b m :
  plain_valid b → plain_legal b m = true →
  ∃ b', plain_push b m = Some b' ∧ plain_valid b'.
Proof.
  intros [Hkings Hprom] Hlegal.
  destruct (plain_legal_spec b m Hlegal) as (p & Hp & Hto & Hnoking).
  unfold plain_push. rewrite Hp, Hprom. eexists. split; [done |].
  split; [|by rewrite !Z.ldiff_0_l, Z.testbit_0_l].
  intros c. apply king_is_Some.
  destruct (proj1 (king_is_Some b c) (Hkings c)) as (k & Hk & Hking).
  unfold is_king_of in Hking.
  destruct (piece_at b k) as [q|] eqn:Hq; [|done].
  destruct (decide (k = from_square m)) as [->|Hfrom].
  - exists (to_square m). split; [done |].
    unfold is_king_of, piece_at. simpl. rewrite lookup_insert_eq.
    rewrite Hq in Hp. injection Hp as <-.
    rewrite Hprom in Hking. rewrite Z.testbit_0_l in *. simpl.
    by rewrite Z.testbit_0_l.
  - assert (k ≠ to_square m) as Hne.
    { intros ->. apply (Hnoking q Hq).
      apply andb_true_iff in Hking as [Hking _].
      apply andb_true_iff in Hking as [Hking _].
      by apply bool_decide_eq_true in Hking. }
    exists k. split; [done |].
    unfold is_king_of, piece_at. simpl.
    rewrite lookup_insert_ne, lookup_delete_ne by done.
    unfold piece_at in Hq. rewrite Hq.
    rewrite Hprom in Hking. rewrite Z.testbit_0_l in *. simpl.
    by rewrite Z.testbit_0_l.
Qed.

Lemma first_plain_move_legal b m :
  head (first_plain_move b) = Some m → plain_legal b m = true.
Proof.
  unfold first_plain_move.
  destruct (filter _ candidate_moves) as [|m' l] eqn:Hf; [done |].
  intros [= <-].
  assert (m' ∈ filter (λ m, plain_legal b m = true ∧ move_bool m = true
                            ∧ piece_at b (from_square m) ≠ Some (mkPiece KING (turn b)))
                      candidate_moves) as Hin by (rewrite Hf; left).
  by apply list_elem_of_filter in Hin as [[? _] _].
Qed.

Lemma plain_legal_not_null b m : plain_legal b m = true → move_bool m = true.
Proof.
  intros Hlegal. unfold move_bool.
  destruct (from_square m =? 0) eqn:Hfrom; [|done].
  destruct (to_square m =? 0) eqn:Hto; [|done].
  apply Z.eqb_eq in Hfrom, Hto. unfold plain_legal in Hlegal.
  rewrite Hfrom, Hto in Hlegal. rewrite !andb_true_iff in Hlegal.
  destruct Hlegal as [_ Hp]. destruct (piece_at b 0) as [p|]; [|done].
  rewrite !andb_true_iff in Hp. destruct Hp as [[Hown _] [Hother _]].
  apply bool_decide_eq_true in Hown, Hother. done.
Qed.

Lemma plain_lawful : Lawful plain_valid.
Proof.
  split.
  - intros b [Hkings _]. apply Hkings.
  - apply plain_legal_not_null.
  - apply plain_push_valid.
  - intros [|n] b m _; simpl; [done |].
    intros Hm _. apply first_plain_move_legal.
    by destruct (first_plain_move b).
Qed.

Lemma h_file_valid : plain_valid h_file.
Proof. split; [intros []; vm_compute; eauto | done]. Qed.

(** C3 (the code departs from it): on [h_file] White plays Kc1-c2; the
    evaluator returns one record, a skewer of the white queen on h5 and the
    white rook on h1 whose attacking piece, on h8, is the black rook: a
    piece of the opponent of the side that moved. *)
Theorem move_creates_pin_or_skewer_reports_opponent_skewer :
  (move_creates_pin_or_skewer 1%positive (plain 2 10)
     (alloc (start_world None) h_file)).1
  = Ret [SkewerT (mkSkewer ROOK (square_name 63) QUEEN (square_name 39)
                           ROOK (square_name 7))]
  ∧ turn h_file = WHITE
  ∧ is_legal h_file (plain 2 10) = true
  ∧ (b' ← push h_file (plain 2 10); piece_at b' 63) = Some (mkPiece ROOK BLACK)
  ∧ (b' ← push h_file (plain 2 10); piece_at b' 39) = Some (mkPiece QUEEN WHITE)
  ∧ (b' ← push h_file (plain 2 10); piece_at b' 7) = Some (mkPiece ROOK WHITE).
Proof. repeat split; vm_compute; reflexivity. Qed.

(** C7 on [h_file] and Kc1-c2. *)
Lemma move_creates_pin_or_skewer_keeps_input_witness :
  ∃ b_after,
    heap (move_creates_pin_or_skewer 1%positive (plain 2 10) (h_file_world 1)).2
      !! 1%positive = Some b_after
    ∧ b_after = h_file
    ∧ (∀ sq, piece_at b_after sq = piece_at h_file sq)
    ∧ turn b_after = turn h_file
    ∧ (∀ c, king b_after c = king h_file c).
Proof.
  apply (move_creates_pin_or_skewer_keeps_input 1%positive (plain 2 10)
           (h_file_world 1) h_file).
  reflexivity.
Defined.

(** C6 on [h_file] and Kc1-c2, with an engine that answers the query
    before the move and fails on the one after it. *)
Lemma analyze_position_without_recommendation_witness :
  ∃ b' r w',
    push h_file (plain 2 10) = Some b'
    ∧ analyze_position 1%positive (Some (plain 2 10)) (h_file_world 1) = (Ret r, w')
    ∧ position_tactics b' = Ret (executed r)
    ∧ (recommend (engine (h_file_world 1)) h_file = None → missed r = [])
    ∧ (recommend (engine_after (engine (h_file_world 1)) h_file) b' = None
       → allowed r = []).
Proof.
  apply (analyze_position_without_recommendation plain_valid (Lawful0 := plain_lawful)
           1%positive (h_file_world 1) h_file (plain 2 10)).
  - reflexivity.
  - exact h_file_valid.
  - reflexivity.
Defined.

End Plain.

(** * Further properties of the detectors *)

(** ** What the records of a pin say *)

Lemma can_piece_pin_sliding t fd rd : can_piece_pin t fd rd = true → sliding t.
Proof.
  unfold sliding. destruct t; simpl; try done; intros _;
    rewrite !elem_of_cons; auto.
Qed.

Lemma pin_scan_first_piece b fd rd sq0 fuel :
  ∀ n seen r pp,
    0 ≤ n →
    (∀ i, 0 < i ≤ n → piece_at b (sq0 + i * (- fd - 8 * rd)) = None) →
    pin_scan fuel b fd rd (sq0 + n * (- fd - 8 * rd)) seen = Ret r →
    r.2 = Some pp →
    ∃ m, n < m
      ∧ pp_square pp = square_name (sq0 + m * (- fd - 8 * rd))
      ∧ 0 ≤ sq0 + m * (- fd - 8 * rd) < 64
      ∧ (∀ i, 0 < i < m → piece_at b (sq0 + i * (- fd - 8 * rd)) = None)
      ∧ can_piece_pin (pp_piece_type pp) fd rd = true.
Proof.
  induction fuel as [|fuel IH]; intros n seen r pp Hn Hempty; simpl; [done |].
  replace (sq0 + n * (- fd - 8 * rd) - fd - 8 * rd)
    with (sq0 + (n + 1) * (- fd - 8 * rd)) by ring.
  destruct (in_range _) eqn:Hr; simpl; [|by intros [= <-]].
  apply in_range_spec in Hr.
  destruct (piece_at b _) as [q|] eqn:Hq.
  - destruct (bool_decide _); simpl; [|by intros [= <-]].
    destruct (can_piece_pin _ _ _) eqn:Hfits; intros [= <-]; [|done].
    intros [= <-]. exists (n + 1). simpl. repeat split; try done; try lia.
    intros i Hi. apply Hempty. lia.
  - intros Hrun Hpp.
    eapply IH in Hrun as (m & Hm & Hrest); [|lia| |exact Hpp].
    + exists m. split; [lia | done].
    + intros i Hi. destruct (decide (i = n + 1)) as [->|]; [done |].
      apply Hempty. lia.
Qed.

Lemma detect_pins_on_ray b pins :
  detect_pins b = Ret pins → Forall (pin_on_ray b) pins.
Proof.
  unfold detect_pins. apply for_each_inv; [constructor |].
  intros acc sq acc' Hsq Hacc. apply elem_of_SQUARES in Hsq.
  destruct (negb _); [|by intros [= <-]].
  destruct (piece_at b sq) as [piece|] eqn:Hp; [|by intros [= <-]].
  case_bool_decide as Hc; [|by intros [= <-]].
  unfold find_pinning_piece. destruct (king b (turn b)) as [k|] eqn:Hk; [|done].
  rewrite !normalize_sgn.
  destruct (pin_scan _ _ _ _ _ _) as [r|c] eqn:Hscan; [|done]. simpl.
  destruct (r.2) as [pp|] eqn:Hpp; intros [= <-]; [|done].
  apply Forall_app. split; [done |]. apply Forall_singleton.
  replace sq with (sq + 0 * (- Z.sgn (square_file k - square_file sq)
                             - 8 * Z.sgn (square_rank k - square_rank sq)))
    in Hscan at 3 by ring.
  destruct (pin_scan_first_piece _ _ _ _ _ 0 [] r pp ltac:(done)
              ltac:(intros i; lia) Hscan Hpp)
    as (m & Hm & Hname & Hrange & Hempty & Hfits).
  exists k, sq, m. simpl. repeat split; try done; lia.
Qed.

Lemma detect_pins_sliding b pins :
  detect_pins b = Ret pins → Forall (λ p, sliding (pinning_piece p)) pins.
Proof.
  intros Hrun. apply detect_pins_on_ray in Hrun.
  eapply Forall_impl; [exact Hrun |].
  intros p (k & sq & n & _ & _ & _ & _ & _ & _ & _ & Hfits).
  by eapply can_piece_pin_sliding.
Qed.

(** X1: when the side to move has a king, [detect_pins] returns, and in
    every pin it returns the pinned square holds a piece of the side to move
    of the recorded kind, and the pinning square holds a queen, rook or
    bishop of the other side, of the recorded kind. *)
Theorem detect_pins_names_pieces b :
  is_Some (king b (turn b)) →
  ∃ pins, detect_pins b = Ret pins
    ∧ Forall (λ p, pin_sides b p ∧ sliding (pinning_piece p)) pins.
Proof.
  intros Hk. destruct (detect_pins_returns b Hk) as [pins Hrun].
  exists pins. split; [done |].
  apply Forall_and. split;
    [by apply detect_pins_sides | by apply (detect_pins_sliding b)].
Qed.

Lemma detect_pins_names_pieces_witness :
  ∃ pins, detect_pins knight_e2 = Ret pins
    ∧ Forall (λ p, pin_sides knight_e2 p ∧ sliding (pinning_piece p)) pins.
Proof. apply detect_pins_names_pieces. vm_compute. eauto. Defined.

(** X2: when the side to move has a king, every pin [detect_pins] returns
    is found on a ray of square indices: stepping from the pinned square by
    minus the signs of the file and rank differences to the king, every
    square before the pinning square is empty, the pinning square is on the
    board, and the pinning piece's kind fits the signs (a rook needs one of
    them to be 0, a bishop needs both or neither). *)
Theorem detect_pins_first_piece_on_ray b :
  is_Some (king b (turn b)) →
  ∃ pins, detect_pins b = Ret pins ∧ Forall (pin_on_ray b) pins.
Proof.
  intros Hk. destruct (detect_pins_returns b Hk) as [pins Hrun].
  exists pins. split; [done | by apply detect_pins_on_ray].
Qed.

Lemma detect_pins_first_piece_on_ray_witness :
  ∃ pins, detect_pins knight_e2 = Ret pins ∧ Forall (pin_on_ray knight_e2) pins.
Proof. apply detect_pins_first_piece_on_ray. vm_compute. eauto. Defined.

(** ** What the records of a skewer say *)

Lemma skewer_scan_pair b piece fd rd sq0 fuel :
  ∀ n st st',
    0 ≤ n →
    line_state b sq0 (fd + 8 * rd) n (pieces_in_line st) →
    skewer_scan fuel b piece fd rd (sq0 + n * (fd + 8 * rd)) st = Ret st' →
    line_pair b sq0 (fd + 8 * rd) (pieces_in_line st').
Proof.
  induction fuel as [|fuel IH]; intros n st st' Hn Hst; simpl; [done |].
  replace (sq0 + n * (fd + 8 * rd) + fd + 8 * rd)
    with (sq0 + (n + 1) * (fd + 8 * rd)) by ring.
  assert (line_pair b sq0 (fd + 8 * rd) (pieces_in_line st)) as Hshort
    by (by destruct Hst as [[-> _]|(lp & i & -> & _)]).
  destruct (in_range _) eqn:Hr; simpl; [|by intros [= <-]].
  apply in_range_spec in Hr.
  destruct (piece_at b _) as [tp|] eqn:Htp.
  - case_bool_decide; [|by intros [= <-]].
    destruct Hst as [[-> Hempty]|(lp & i & -> & Hi & Hlp & Hempty)]; simpl.
    + apply (IH (n + 1)); [lia |]. right. eexists _, (n + 1). simpl.
      repeat split; try done; try lia.
      intros k Hk Hne. apply Hempty. lia.
    + intros [= <-]. simpl. exists i, (n + 1).
      repeat split; try done; try lia.
      intros k Hk Hne. apply Hempty; [lia | done].
  - apply (IH (n + 1)); [lia |]. simpl.
    destruct Hst as [[-> Hempty]|(lp & i & -> & Hi & Hlp & Hempty)].
    + left. split; [done |]. intros k Hk.
      destruct (decide (k = n + 1)) as [->|]; [done | apply Hempty; lia].
    + right. exists lp, i. repeat split; try done; try lia.
      intros k Hk Hne.
      destruct (decide (k = n + 1)) as [->|]; [done | apply Hempty; [lia | done] ].
Qed.

Lemma detect_skewers_on_ray b skewers :
  detect_skewers b = Ret skewers → Forall (skewer_on_ray b) skewers.
Proof.
  unfold detect_skewers. apply for_each_inv; [constructor |].
  intros acc sq acc' Hsq Hacc. apply elem_of_SQUARES in Hsq.
  destruct (piece_at b sq) as [piece|] eqn:Hp; [|by intros [= <-]].
  destruct (_ && _); [|by intros [= <-]].
  destruct (find_skewers_from_piece b sq piece) as [found|c] eqn:Hfound; [|done].
  intros [= <-]. apply Forall_app. split; [done |].
  revert Hfound. unfold find_skewers_from_piece.
  apply for_each_inv; [constructor |].
  intros found0 [fd rd] found1 Hd Hfound0. unfold skewer_direction_step.
  destruct (skewer_scan _ _ _ _ _ _ _) as [st|c] eqn:Hscan; [|done]. simpl.
  replace sq with (sq + 0 * (fd + 8 * rd)) in Hscan at 1 by ring.
  apply skewer_scan_pair in Hscan; [|done|left; split; [done | intros k; lia] ].
  destruct (pieces_in_line st) as [|front [|back [|? ?]]]; try (by intros [= <-]).
  destruct (_ >? _); intros [= <-]; [|done].
  apply Forall_app. split; [done |]. apply Forall_singleton.
  destruct Hscan as (i & j & Hij & Hfront & Hback & Hrange & Hempty).
  exists sq, fd, rd, i, j. simpl. rewrite Hfront, Hback.
  repeat split; try done; lia.
Qed.

Lemma detect_skewers_sliding b skewers :
  detect_skewers b = Ret skewers → Forall (λ s, sliding (attacking_piece s)) skewers.
Proof.
  unfold detect_skewers. apply for_each_inv; [constructor |].
  intros acc sq acc' Hsq Hacc.
  destruct (piece_at b sq) as [piece|] eqn:Hp; [|by intros [= <-]].
  destruct (bool_decide (color piece = turn b)); simpl; [|by intros [= <-]].
  case_bool_decide as Hkind; [|by intros [= <-]].
  destruct (find_skewers_from_piece b sq piece) as [found|c] eqn:Hfound; [|done].
  intros [= <-]. apply Forall_app. split; [done |].
  revert Hfound. unfold find_skewers_from_piece.
  apply for_each_inv; [constructor |].
  intros found0 [fd rd] found1 _ Hfound0. unfold skewer_direction_step.
  destruct (skewer_scan _ _ _ _ _ _ _) as [st|c]; [|done]. simpl.
  destruct (pieces_in_line st) as [|front [|back [|? ?]]]; try (by intros [= <-]).
  destruct (_ >? _); intros [= <-]; [|done].
  apply Forall_app. split; [done |]. by apply Forall_singleton.
Qed.

(** X3: [detect_skewers] always returns, and in every skewer it returns the
    attacking square holds a queen, rook or bishop of the side to move, and
    the front and back squares hold pieces of the other side, each of the
    recorded kind. *)
Theorem detect_skewers_names_pieces b :
  ∃ skewers, detect_skewers b = Ret skewers
    ∧ Forall (λ s, skewer_sides b s ∧ sliding (attacking_piece s)) skewers.
Proof.
  destruct (detect_skewers_spec b) as (skewers & Hrun & _).
  exists skewers. split; [done |]. apply Forall_and. split;
    [by apply detect_skewers_sides | by apply (detect_skewers_sliding b)].
Qed.

(** X4: every skewer [detect_skewers] returns is found on a ray of square
    indices: stepping from the attacker by one of the directions of its
    kind, the front target is met first and the back target second, every
    other square up to the back target is empty, and the back target is on
    the board. *)
Theorem detect_skewers_targets_on_ray b :
  ∃ skewers, detect_skewers b = Ret skewers ∧ Forall (skewer_on_ray b) skewers.
Proof.
  destruct (detect_skewers_spec b) as (skewers & Hrun & _).
  exists skewers. split; [done | by apply detect_skewers_on_ray].
Qed.

(** ** Order and number of the records *)

Lemma for_each_picks {A B C} (proj : B → C) (g : A → C) (xs : list A)
    (body : list B → A → res (list B)) :
  (∀ acc x acc', body acc x = Ret acc' →
     acc' = acc ∨ ∃ y, acc' = acc ++ [y] ∧ proj y = g x) →
  ∀ acc r, for_each xs acc body = Ret r →
    ∃ ys, ys `sublist_of` xs ∧ proj <$> r = (proj <$> acc) ++ (g <$> ys).
Proof.
  intros Hbody. induction xs as [|x xs IH]; intros acc r; simpl.
  - intros [= <-]. exists []. split; [done |]. by rewrite app_nil_r.
  - destruct (body acc x) as [acc'|c] eqn:Hx; simpl; [|done].
    intros Hrun. destruct (IH _ _ Hrun) as (ys & Hys & Hr).
    destruct (Hbody _ _ _ Hx) as [->|(y & -> & Hy)].
    + exists ys. split; [by apply sublist_cons | done].
    + exists (x :: ys). split; [by apply sublist_skip |].
      rewrite Hr, fmap_app, <- app_assoc. simpl. by rewrite Hy.
Qed.

Lemma for_each_length {A B} (xs : list A) (body : list B → A → res (list B)) :
  (∀ acc x acc', body acc x = Ret acc' → (length acc' ≤ S (length acc))%nat) →
  ∀ acc r, for_each xs acc body = Ret r →
    (length r ≤ length acc + length xs)%nat.
Proof.
  intros Hbody. induction xs as [|x xs IH]; intros acc r; simpl.
  - intros [= <-]. lia.
  - destruct (body acc x) as [acc'|c] eqn:Hx; simpl; [|done].
    intros Hrun. apply IH in Hrun. apply Hbody in Hx. lia.
Qed.

(** X5: the pins [detect_pins] returns are listed in ascending order of
    the pinned square, with at most one pin for a square: their pinned
    squares are the names of a sublist of the squares 0 .. 63. *)
Theorem detect_pins_ascending b :
  is_Some (king b (turn b)) →
  ∃ pins sqs, detect_pins b = Ret pins
    ∧ sqs `sublist_of` SQUARES
    ∧ pinned_square <$> pins = square_name <$> sqs.
Proof.
  intros Hk. destruct (detect_pins_returns b Hk) as [pins Hrun].
  exists pins. pose proof Hrun as Hpicks. unfold detect_pins in Hpicks.
  apply (for_each_picks pinned_square square_name) in Hpicks
    as (sqs & Hsqs & Hnames); [by exists sqs |].
  intros acc sq acc'. destruct (negb _); [|intros [= <-]; by left].
  destruct (piece_at b sq) as [piece|]; [|intros [= <-]; by left].
  case_bool_decide; [|intros [= <-]; by left].
  destruct (find_pinning_piece _ _ _) as [[pp|]|c]; simpl;
    [| intros [= <-]; by left | done].
  intros [= <-]. right. by eexists.
Qed.

Lemma detect_pins_ascending_witness :
  ∃ pins sqs, detect_pins knight_e2 = Ret pins
    ∧ sqs `sublist_of` SQUARES
    ∧ pinned_square <$> pins = square_name <$> sqs.
Proof. apply detect_pins_ascending. vm_compute. eauto. Defined.

Lemma skewer_directions_length t : length (skewer_directions t) = max_skewers t.
Proof. by destruct t. Qed.

(** X6: a piece delivers at most one skewer for each direction of its kind:
    [find_skewers_from_piece] returns at most 8 skewers for a queen, at most
    4 for a rook or a bishop, and none for another piece. *)
Theorem find_skewers_from_piece_bound b sq piece :
  0 ≤ sq < 64 →
  ∃ found, find_skewers_from_piece b sq piece = Ret found
    ∧ (length found ≤ max_skewers (piece_type piece))%nat.
Proof.
  intros Hsq. destruct (find_skewers_from_piece_spec b sq piece Hsq) as (found & Hrun & _).
  exists found. split; [done |]. rewrite <- skewer_directions_length.
  unfold find_skewers_from_piece in Hrun.
  apply for_each_length in Hrun; [done |].
  intros acc [fd rd] acc'. unfold skewer_direction_step.
  destruct (skewer_scan _ _ _ _ _ _ _) as [st|c]; [|done]. simpl.
  destruct (pieces_in_line st) as [|front [|back [|? ?]]];
    try (intros [= <-]; lia).
  destruct (_ >? _); intros [= <-]; [|lia]. rewrite length_app. simpl. lia.
Qed.

Lemma find_skewers_from_piece_bound_witness :
  ∃ found, find_skewers_from_piece file_a_skewer 0 wR = Ret found
    ∧ (length found ≤ max_skewers (piece_type wR))%nat.
Proof. apply find_skewers_from_piece_bound. lia. Defined.

(** ** The pin mask and a missing king *)

Lemma mask_of_all_squares sq :
  0 ≤ sq < 64 → (Z.land BB_ALL (BB_SQUARES sq) =? 0) = false.
Proof.
  intros Hsq. apply elem_of_SQUARES in Hsq.
  assert (Forall (λ sq, (Z.land BB_ALL (BB_SQUARES sq) =? 0) = false) SQUARES) as Hall.
  { apply Forall_forall. intros sq' Hsq'.
    repeat (apply elem_of_cons in Hsq' as [->|Hsq']; [vm_compute; reflexivity |]).
    by apply elem_of_nil in Hsq'. }
  by apply (proj1 (Forall_forall _ _) Hall).
Qed.

Lemma detect_pins_mask_is_vacuous_aux b :
  pin_mask b (turn b) (king b (turn b)) = BB_ALL
  ∧ detect_pins b = detect_pins_unmasked b.
Proof.
  split; [apply pin_mask_of_king |].
  unfold detect_pins, detect_pins_unmasked. rewrite pin_mask_of_king.
  apply for_each_ext. intros acc sq Hsq. apply elem_of_SQUARES in Hsq.
  by rewrite mask_of_all_squares.
Qed.

(** X7: the test of the pin mask in [detect_pins] never excludes a square:
    the mask is asked for the king's own square and is the full board, so
    [detect_pins] is the same loop without the test. *)
Theorem detect_pins_mask_is_vacuous b :
  pin_mask b (turn b) (king b (turn b)) = BB_ALL
  ∧ detect_pins b = detect_pins_unmasked b.
Proof. apply detect_pins_mask_is_vacuous_aux. Qed.

(** X8: when the side to move has no king, [detect_pins] raises
    [TypeError] if that side has any piece on the board, and returns the
    empty list if it has none. *)
Theorem detect_pins_without_king b :
  king b (turn b) = None →
  ((∃ sq p, 0 ≤ sq < 64 ∧ piece_at b sq = Some p ∧ color p = turn b) →
     detect_pins b = Raise TypeError)
  ∧ ((∀ sq p, 0 ≤ sq < 64 → piece_at b sq = Some p → color p ≠ turn b) →
     detect_pins b = Ret []).
Proof.
  intros Hk. rewrite (proj2 (detect_pins_mask_is_vacuous_aux b)).
  unfold detect_pins_unmasked. rewrite Hk. split.
  - intros (sq & p & Hsq & Hp & Hc). apply elem_of_SQUARES in Hsq.
    generalize (@nil Pin). revert Hsq.
    induction SQUARES as [|x xs IH]; intros Hsq acc; [by apply elem_of_nil in Hsq |].
    simpl. destruct (decide (x = sq)) as [->|Hne].
    + rewrite Hp. by rewrite bool_decide_eq_true_2.
    + apply elem_of_cons in Hsq as [->|Hsq]; [done |].
      destruct (piece_at b x) as [q|]; [|by apply IH].
      case_bool_decide; [done | by apply IH].
  - intros Hnone.
    destruct (for_each_total (λ pins, pins = []) SQUARES
      (λ pins square,
        match piece_at b square with
        | Some piece =>
          if bool_decide (color piece = turn b) then
            pinning_piece ← find_pinning_piece b square None;
            match pinning_piece with
            | Some pp =>
              Ret (pins ++ [mkPin (piece_type piece) (square_name square)
                                  (pp_piece_type pp) (pp_square pp)])
            | None => Ret pins
            end
          else Ret pins
        | None => Ret pins
        end) []) as (pins & -> & ->); [done | | done].
    intros acc sq Hsq ->. apply elem_of_SQUARES in Hsq.
    destruct (piece_at b sq) as [q|] eqn:Hq; [|eauto].
    rewrite bool_decide_eq_false_2 by (by apply (Hnone sq)). eauto.
Qed.

Lemma detect_pins_without_king_witness :
  ((∃ sq p, 0 ≤ sq < 64 ∧ piece_at kingless sq = Some p ∧ color p = turn kingless) →
     detect_pins kingless = Raise TypeError)
  ∧ ((∀ sq p, 0 ≤ sq < 64 → piece_at kingless sq = Some p → color p ≠ turn kingless) →
     detect_pins kingless = Ret []).
Proof. apply detect_pins_without_king. reflexivity. Defined.

(** ** Boards without the pieces a record needs *)

Lemma has_no_slider_spec b c :
  has_no_slider b c = true →
  ∀ sq p, 0 ≤ sq < 64 → piece_at b sq = Some p → color p = c →
    ¬ sliding (piece_type p).
Proof.
  unfold has_no_slider. rewrite forallb_forall.
  intros Hall sq p Hsq Hp Hc Hkind.
  apply elem_of_SQUARES, list_elem_of_In, Hall in Hsq.
  rewrite Hp in Hsq. by rewrite !bool_decide_eq_true_2 in Hsq.
Qed.

(** X9: when the side to move has a king and the other side has no queen,
    rook or bishop on the board, [detect_pins] returns the empty list. *)
Theorem detect_pins_without_enemy_slider b :
  is_Some (king b (turn b)) →
  (∀ sq p, 0 ≤ sq < 64 → piece_at b sq = Some p → color p = negb (turn b) →
     ¬ sliding (piece_type p)) →
  detect_pins b = Ret [].
Proof.
  intros Hk Hnone. destruct (detect_pins_returns b Hk) as [pins Hrun].
  rewrite Hrun. f_equal. destruct pins as [|p pins]; [done |].
  pose proof (detect_pins_sides b _ Hrun) as Hsides.
  pose proof (detect_pins_sliding b _ Hrun) as Hkind.
  apply Forall_cons in Hsides as [[_ (sq & q & Hsq & _ & Hq & Ht & Hc)] _].
  apply Forall_cons in Hkind as [Hkind _].
  destruct (Hnone sq q Hsq Hq Hc). by rewrite Ht.
Qed.

Lemma detect_pins_without_enemy_slider_witness : detect_pins knights_only = Ret [].
Proof.
  apply detect_pins_without_enemy_slider.
  - vm_compute. eauto.
  - by apply has_no_slider_spec.
Defined.

(** X10: when the side to move has no queen, rook or bishop on the board,
    [detect_skewers] returns the empty list. *)
Theorem detect_skewers_without_slider b :
  (∀ sq p, 0 ≤ sq < 64 → piece_at b sq = Some p → color p = turn b →
     ¬ sliding (piece_type p)) →
  detect_skewers b = Ret [].
Proof.
  intros Hnone. destruct (detect_skewers_spec b) as (skewers & Hrun & _).
  rewrite Hrun. f_equal. destruct skewers as [|s skewers]; [done |].
  pose proof (detect_skewers_sides b _ Hrun) as Hsides.
  pose proof (detect_skewers_sliding b _ Hrun) as Hkind.
  apply Forall_cons in Hsides as [[(sq & q & Hsq & _ & Hq & Ht & Hc) _] _].
  apply Forall_cons in Hkind as [Hkind _].
  destruct (Hnone sq q Hsq Hq Hc). by rewrite Ht.
Qed.

Lemma detect_skewers_without_slider_witness : detect_skewers knights_only = Ret [].
Proof.
  apply detect_skewers_without_slider.
  by apply has_no_slider_spec.
Defined.

(** ** The king is never reported as pinned *)

Lemma square_name_inj s1 s2 :
  0 ≤ s1 < 64 → 0 ≤ s2 < 64 → square_name s1 = square_name s2 → s1 = s2.
Proof.
  intros H1 H2. apply elem_of_SQUARES in H1, H2.
  assert (Forall (λ s1, Forall (λ s2, square_name s1 = square_name s2 → s1 = s2)
                               SQUARES) SQUARES) as Hall.
  { apply (bool_decide_unpack _). by vm_compute. }
  apply (proj1 (Forall_forall _ _) Hall) in H1.
  exact (proj1 (Forall_forall _ _) H1 s2 H2).
Qed.

Lemma pin_scan_own_piece b fuel sq seen p :
  0 ≤ sq < 64 → piece_at b sq = Some p → color p = turn b →
  pin_scan (S fuel) b 0 0 sq seen = Ret (seen ++ [sq], None).
Proof.
  intros Hsq Hp Hc. simpl. replace (sq - 0 - 8 * 0) with sq by lia.
  rewrite (proj2 (in_range_spec sq) Hsq), Hp. simpl.
  by rewrite bool_decide_eq_false_2 by (by intros ?).
Qed.

(** X11: when the side to move has a king, no pin [detect_pins] returns
    names the king's own square as the pinned square. *)
Theorem detect_pins_never_pins_king b king_sq :
  king b (turn b) = Some king_sq →
  ∃ pins, detect_pins b = Ret pins
    ∧ Forall (λ p, pinned_square p ≠ square_name king_sq) pins.
Proof.
  intros Hk. destruct (detect_pins_returns b (mk_is_Some _ _ Hk)) as [pins Hrun].
  exists pins. split; [done |]. revert Hrun. unfold detect_pins.
  apply for_each_inv; [constructor |].
  intros acc sq acc' Hsq Hacc. apply elem_of_SQUARES in Hsq.
  destruct (negb _); [|by intros [= <-]].
  destruct (piece_at b sq) as [piece|] eqn:Hp; [|by intros [= <-]].
  case_bool_decide as Hc; [|by intros [= <-]].
  rewrite Hk. destruct (decide (sq = king_sq)) as [->|Hne].
  - unfold find_pinning_piece. rewrite !Z.sub_diag.
    change (normalize 0) with 0. change ray_fuel with (S 63).
    rewrite (pin_scan_own_piece b 63 king_sq [] piece Hsq Hp Hc). simpl.
    by intros [= <-].
  - destruct (find_pinning_piece _ _ _) as [[pp|]|c]; simpl;
      [| by intros [= <-] | done].
    intros [= <-]. apply Forall_app. split; [done |]. apply Forall_singleton.
    simpl. intros Hname. apply Hne.
    apply (square_name_inj sq king_sq Hsq); [|done].
    by apply (king_Some b (turn b)).
Qed.

Lemma detect_pins_never_pins_king_witness :
  ∃ pins, detect_pins knight_e2 = Ret pins
    ∧ Forall (λ p, pinned_square p ≠ square_name 4) pins.
Proof. apply detect_pins_never_pins_king. reflexivity. Defined.

(** * Further properties of the analyzers *)

(** ** No board object is changed behind the caller's back *)

Section Frames.
Context `{rules : Rules} `{eng : Engine}.

Lemma framed_ret {A} (a : A) w : framed (mret a) w.
Proof. by split. Qed.

Lemma framed_bind {A B} (m : M A) (k : A → M B) w :
  framed m w →
  (∀ a w1, m w = (Ret a, w1) → heap w ⊆ heap w1 → framed (k a) w1) →
  framed (m ≫= k) w.
Proof.
  unfold framed, mbind, M_bind_inst, M_bind.
  destruct (m w) as [[a|c] w1] eqn:Hm; simpl; intros [Hsub Hclean] Hk; [|done].
  destruct (Hk a w1 eq_refl Hsub) as [Hsub1 Hclean1].
  split; [by etrans | done].
Qed.

Lemma board_at_inv l w b w1 :
  board_at l w = (Ret b, w1) → w1 = w ∧ heap w !! l = Some b.
Proof. unfold board_at. destruct (heap w !! l); by intros [= -> ->]. Qed.

Lemma framed_board_at l w b : heap w !! l = Some b → framed (board_at l) w.
Proof. intros Hl. unfold framed. by rewrite (board_at_eq _ _ _ Hl). Qed.

Lemma framed_get_best_move l w b : heap w !! l = Some b → framed (get_best_move l) w.
Proof.
  intros Hl. unfold framed. rewrite (get_best_move_eq _ _ _ Hl). simpl.
  by rewrite heap_queried.
Qed.

Lemma position_tactics_clean b : clean (position_tactics b).
Proof.
  unfold position_tactics.
  destruct (detect_pins_outcome b) as [[pins ->]| ->]; [|done].
  by destruct (detect_skewers_spec b) as (skewers & -> & _).
Qed.

Lemma framed_move_creates_pin_or_skewer l m w b :
  heap w !! l = Some b → framed (move_creates_pin_or_skewer l m) w.
Proof.
  intros Hl. split; [apply move_creates_pin_or_skewer_frame |].
  destruct (push b m) as [b'|] eqn:Hpush.
  - rewrite (move_creates_pin_or_skewer_eq _ _ _ _ _ Hl Hpush).
    apply position_tactics_clean.
  - by rewrite (move_creates_pin_or_skewer_fails _ _ _ _ Hl Hpush).
Qed.

(** A copy is pushed to and handed on. *)
Lemma framed_copy_push {A} l m (k : loc → M A) w b :
  heap w !! l = Some b →
  (∀ b', push b m = Some b' → framed (k (fresh (dom (heap w)))) (alloc w b')) →
  framed (board_copy ← copy l; push_at board_copy m;; k board_copy) w.
Proof.
  intros Hl Hk. unfold framed. run (copy_eq _ _ _ Hl).
  destruct (push b m) as [b'|] eqn:Hpush.
  - run (push_at_eq _ _ _ _ _ (alloc_new _ _) Hpush).
    replace (mkWorld _ _ _) with (alloc w b')
      by (unfold alloc; simpl; by rewrite insert_insert_eq).
    destruct (Hk b' eq_refl) as [Hsub Hclean].
    split; [|done]. etrans; [apply alloc_subseteq | done].
  - stop (push_at_fails _ _ _ _ (alloc_new _ _) Hpush).
    split; [apply alloc_subseteq | done].
Qed.

Lemma framed_analyze_position l pm w b :
  heap w !! l = Some b → framed (analyze_position l pm) w.
Proof.
  intros Hl. unfold analyze_position.
  destruct pm as [m|]; [|apply framed_ret].
  destruct (move_bool m); [|apply framed_ret]. cbn [negb]. cbv zeta.
  apply framed_bind; [by eapply framed_get_best_move |].
  intros best w1 _ Hsub1.
  pose proof (lookup_weaken _ _ _ _ Hl Hsub1) as Hl1.
  apply framed_bind; [by eapply framed_move_creates_pin_or_skewer |].
  intros played w2 _ Hsub2.
  pose proof (lookup_weaken _ _ _ _ Hl1 Hsub2) as Hl2.
  apply framed_bind.
  { destruct (_ && _); [|apply framed_ret].
    destruct best as [best|]; [|apply framed_ret].
    apply framed_bind; [by eapply framed_move_creates_pin_or_skewer |].
    intros. apply framed_ret. }
  intros r2 w3 _ Hsub3.
  pose proof (lookup_weaken _ _ _ _ Hl2 Hsub3) as Hl3.
  apply (framed_copy_push l m _ w3 b Hl3).
  intros b' Hpush.
  apply framed_bind; [by eapply framed_board_at, alloc_new |].
  intros after w5 Hafter _. apply board_at_inv in Hafter as [-> Hl5].
  destruct (is_game_over after); [apply framed_ret |]. cbn [negb].
  apply framed_bind; [by eapply framed_get_best_move |].
  intros reply w6 _ Hsub6.
  pose proof (lookup_weaken _ _ _ _ Hl5 Hsub6) as Hl6.
  destruct reply as [reply|]; [|apply framed_ret].
  destruct (move_bool reply); [|apply framed_ret].
  apply framed_bind; [by eapply framed_move_creates_pin_or_skewer |].
  intros. apply framed_ret.
Qed.

(** X12: whatever the played move (legal or not, missing or null) and
    however the call ends, [analyze_position] leaves every board object as
    it was, the one it is handed included; and handed a board object it
    always ends: it returns or it raises. *)
Theorem analyze_position_keeps_boards l pm w :
  heap w ⊆ heap (analyze_position l pm w).2
  ∧ (is_Some (heap w !! l) → clean (analyze_position l pm w).1).
Proof.
  destruct (heap w !! l) as [b|] eqn:Hl.
  - destruct (framed_analyze_position l pm w b Hl). by split.
  - split; [|by intros [? ?] ].
    unfold analyze_position. destruct pm as [m|]; [|done].
    destruct (move_bool m); [|done]. cbn [negb]. cbv zeta.
    unfold get_best_move, mbind, M_bind_inst, M_bind. by rewrite Hl.
Qed.

Lemma game_loop_framed moves :
  ∀ l w b game_result move_number,
    heap w !! l = Some b →
    kept_except l w (game_loop moves l game_result move_number w).2
    ∧ is_Some (heap (game_loop moves l game_result move_number w).2 !! l)
    ∧ clean (game_loop moves l game_result move_number w).1.
Proof.
  induction moves as [|m moves IH]; intros l w b gr mn Hl; simpl.
  - repeat split; [by intros ? | by eexists].
  - run (board_at_eq _ _ _ Hl).
    destruct (is_legal b m); [|repeat split; [by intros ? | by eexists] ].
    destruct (framed_analyze_position l (Some m) w b Hl) as [Hsub Hclean].
    destruct (analyze_position l (Some m) w) as [[pr|c] w1] eqn:Hrun; simpl in *.
    + run Hrun. pose proof (lookup_weaken _ _ _ _ Hl Hsub) as Hl1.
      destruct (push b m) as [b1|] eqn:Hpush.
      * run (push_at_eq _ _ _ _ _ Hl1 Hpush).
        set (w2 := mkWorld (<[l := b1]> (heap w1)) (engine w1) (oracle_log w1)).
        assert (heap w2 !! l = Some b1) as Hl2 by apply lookup_insert_eq.
        run (board_at_eq _ _ _ Hl2).
        destruct (IH l w2 b1 (add_tagged gr pr mn (turn b))
                    (if turn b1 then mn + 1 else mn) Hl2) as (Hkept & Hstill & Hend).
        repeat split; try done.
        intros l' b' Hne Hl'. apply Hkept; [done |].
        unfold w2. simpl. rewrite lookup_insert_ne by done.
        by apply (lookup_weaken _ _ _ _ Hl').
      * stop (push_at_fails _ _ _ _ Hl1 Hpush).
        repeat split; [|by eexists].
        intros l' b' _ Hl'. by apply (lookup_weaken _ _ _ _ Hl').
    + stop Hrun. repeat split; [| |done].
      * intros l' b' _ Hl'. by apply (lookup_weaken _ _ _ _ Hl').
      * exists b. by apply (lookup_weaken _ _ _ _ Hl).
Qed.

Lemma framed_analyze_game game w : framed (analyze_game game) w.
Proof.
  unfold framed, analyze_game. run (new_board_eq _ _).
  destruct (game_loop_framed (mainline_moves game) _ _ _ (mkGameResult [] [] []) 1
              (alloc_new w (game_board game))) as (Hkept & _ & Hclean).
  split; [|done]. apply map_subseteq_spec. intros l b Hl.
  apply Hkept; [|by apply alloc_old].
  intros ->. by rewrite fresh_loc_unused in Hl.
Qed.

(** X13: [analyze_game] works on a board object of its own: whatever the
    game and however the call ends, every board object that existed before
    the call is as it was; and the call always ends: it returns or it
    raises. *)
Theorem analyze_game_keeps_boards game w :
  heap w ⊆ heap (analyze_game game w).2 ∧ clean (analyze_game game w).1.
Proof. apply framed_analyze_game. Qed.

Lemma framed_pgn_loop pgn_file :
  ∀ game_count results w, framed (pgn_loop pgn_file game_count results) w.
Proof.
  induction pgn_file as [|game pgn_file IH]; intros c results w; simpl.
  - destruct (c <? 5); apply framed_ret.
  - destruct (c <? 5); [|apply framed_ret].
    apply framed_bind; [apply framed_analyze_game |]. intros. apply IH.
Qed.

Lemma analyze_pgn_file_always_returns disk pgn_file_path w :
  ∃ results w', analyze_pgn_file disk pgn_file_path w = (Ret results, w').
Proof.
  unfold analyze_pgn_file, try_except, open.
  destruct (disk !! pgn_file_path) as [pgn_file|]; [|by eexists _, _].
  change ((mret pgn_file ≫= λ pgn_file, pgn_loop pgn_file 0 ∅) w)
    with (pgn_loop pgn_file 0 ∅ w).
  destruct (framed_pgn_loop pgn_file 0 ∅ w) as [_ Hclean].
  destruct (pgn_loop pgn_file 0 ∅ w) as [[r|[e| |]] w1]; simpl in *;
    try done; by eexists _, _.
Qed.

(** X14: [analyze_pgn_file] never raises: whatever the disk, the path, the
    games and the engine, it returns a dictionary (the empty one when the
    file is missing or anything raised on the way), and every board object
    that existed before the call is as it was. *)
Theorem analyze_pgn_file_returns disk pgn_file_path w :
  ∃ results w',
    analyze_pgn_file disk pgn_file_path w = (Ret results, w')
    ∧ heap w ⊆ heap w'
    ∧ (disk !! pgn_file_path = None → results = ∅ ∧ w' = w).
Proof.
  unfold analyze_pgn_file, try_except, open.
  destruct (disk !! pgn_file_path) as [pgn_file|]; [|by eexists _, _].
  change ((mret pgn_file ≫= λ pgn_file, pgn_loop pgn_file 0 ∅) w)
    with (pgn_loop pgn_file 0 ∅ w).
  destruct (framed_pgn_loop pgn_file 0 ∅ w) as [Hsub Hclean].
  destruct (pgn_loop pgn_file 0 ∅ w) as [[r|[e| |]] w1]; simpl in *;
    try done; by eexists _, _.
Qed.

(** The keys the loop of [analyze_pgn_file] adds. *)
Lemma pgn_loop_dom pgn_file :
  ∀ game_count results w r w',
    0 ≤ game_count ≤ 5 →
    pgn_loop pgn_file game_count results w = (Ret r, w') →
    dom r = dom results
            ∪ list_to_set (game_key <$> seqZ (game_count + 1)
                             (Z.min (5 - game_count) (Z.of_nat (length pgn_file)))).
Proof.
  induction pgn_file as [|game pgn_file IH]; intros c results w r w' Hc Hrun.
  - simpl in Hrun. replace (Z.min (5 - c) (Z.of_nat (length (@nil Game)))) with 0
      by (simpl; lia).
    simpl. rewrite (right_id_L ∅ (∪)).
    destruct (c <? 5); by injection Hrun as <- <-.
  - destruct (Z.ltb_spec c 5) as [Hlt|Hge].
    + simpl in Hrun. rewrite (proj2 (Z.ltb_lt c 5)) in Hrun by done.
      unfold mbind, M_bind_inst, M_bind in Hrun.
      destruct (analyze_game game w) as [[game_result|abort] w1]; [|done].
      apply IH in Hrun; [|lia]. rewrite Hrun, dom_insert_L.
      rewrite (seqZ_cons (c + 1)) by (simpl length; lia).
      rewrite fmap_cons, list_to_set_cons.
      replace (Z.pred (Z.min (5 - c) (Z.of_nat (length (game :: pgn_file)))))
        with (Z.min (5 - (c + 1)) (Z.of_nat (length pgn_file))) by (simpl length; lia).
      replace (Z.succ (c + 1)) with (c + 1 + 1) by lia.
      rewrite (comm_L (∪) {[game_key (c + 1)]} (dom results)).
      by rewrite <- (assoc_L (∪)).
    + rewrite pgn_loop_done in Hrun by done. injection Hrun as <- <-.
      replace (Z.min (5 - c) (Z.of_nat (length (game :: pgn_file)))) with 0 by lia.
      simpl. by rewrite (right_id_L ∅ (∪)).
Qed.

(** X15: the dictionary [analyze_pgn_file] returns is empty, or its keys
    are exactly [game_1] .. [game_n] for the [n] games read, [n] being 5 or
    the number of games in the file if that is less. *)
Theorem analyze_pgn_file_keys disk pgn_file_path w :
  ∃ results w',
    analyze_pgn_file disk pgn_file_path w = (Ret results, w')
    ∧ (results = ∅
       ∨ ∃ pgn_file, disk !! pgn_file_path = Some pgn_file
           ∧ dom results = keys_upto (Z.min 5 (Z.of_nat (length pgn_file)))).
Proof.
  destruct (analyze_pgn_file_always_returns disk pgn_file_path w)
    as (results & w' & Hrun).
  exists results, w'. split; [done |].
  apply pgn_loop_files in Hrun as [->|(pgn_file & Hfile & Hloop)]; [by left |].
  right. exists pgn_file. split; [done |].
  apply pgn_loop_dom in Hloop; [|lia].
  rewrite Hloop, dom_empty_L, (left_id_L ∅ (∪)). unfold keys_upto.
  by replace (5 - 0) with 5 by lia.
Qed.

End Frames.

(** ** What the position analyzer returns and asks *)

Section PositionResult.
Context `{rules : Rules} `{eng : Engine} (valid : Board → Prop) `{!Lawful valid}.

Lemma created_eq l w b m :
  heap w !! l = Some b → valid b → is_legal b m = true →
  ∃ b', push b m = Some b' ∧ valid b'
    ∧ move_creates_pin_or_skewer l m w = (Ret (created b m), alloc w b').
Proof.
  intros Hl Hv Hlegal.
  destruct (move_creates_pin_or_skewer_returns valid l w b m Hl Hv Hlegal)
    as (b' & tactics & Hpush & Hv' & Htactics & Hrun).
  exists b'. repeat split; try done.
  unfold created. by rewrite Hpush, Htactics.
Qed.

Lemma recommend_legal e b m :
  valid b → recommend e b = Some m → move_bool m = true → is_legal b m = true.
Proof.
  unfold recommend. destruct e as [e|]; [|done]. intros. by apply (engine_legal e).
Qed.

Lemma analyze_position_full l w b m :
  heap w !! l = Some b → valid b → is_legal b m = true →
  ∃ b' w',
    push b m = Some b'
    ∧ analyze_position l (Some m) w
      = (Ret (mkPositionResult (created b m)
                (expected_missed (engine w) b m)
                (expected_allowed (engine_after (engine w) b) b')), w')
    ∧ oracle_log w' = oracle_log w ++ ply_queries (engine w) b b'
    ∧ engine w' = engine_after_ply (engine w) b b'.
Proof.
  intros Hl Hv Hlegal. pose proof (legal_not_null b m Hlegal) as Hm.
  unfold analyze_position. rewrite Hm. cbn [negb]. cbv zeta.
  run (get_best_move_eq _ _ _ Hl).
  assert (heap (queried w b) !! l = Some b) as Hl1 by (by rewrite heap_queried).
  destruct (created_eq l (queried w b) b m Hl1 Hv Hlegal) as (b' & Hpush & Hv' & Hrun).
  run Hrun. clear Hrun. exists b'. cbn [executed missed allowed app].
  set (w2 := alloc (queried w b) b').
  assert (heap w2 !! l = Some b) as Hl2 by (by apply alloc_old).
  assert (engine w2 = engine_after (engine w) b) as Heng2
    by apply engine_queried.
  assert (oracle_log w2 = oracle_log (queried w b)) as Hlog2 by done.
  (* the recommended move *)
  assert (∃ w3,
    (if opt_move_bool (recommend (engine w) b)
        && bool_decide (recommend (engine w) b ≠ Some m)
     then
       match recommend (engine w) b with
       | Some best_move =>
         best_move_tactics ← move_creates_pin_or_skewer l best_move;
         mret (mkPositionResult (created b m) ([] ++ best_move_tactics) [])
       | None => mret (mkPositionResult (created b m) [] [])
       end
     else mret (mkPositionResult (created b m) [] [])) w2
    = (Ret (mkPositionResult (created b m) (expected_missed (engine w) b m) []), w3)
    ∧ heap w3 !! l = Some b ∧ engine w3 = engine w2
    ∧ oracle_log w3 = oracle_log w2) as (w3 & Hrun & Hl3 & Heng3 & Hlog3).
  { unfold expected_missed.
    destruct (recommend (engine w) b) as [best|] eqn:Hbest; simpl;
      [|by exists w2].
    destruct (move_bool best) eqn:Hbm; simpl; [|by exists w2].
    destruct (decide (best = m)) as [->|Hne].
    - rewrite !bool_decide_eq_false_2 by (by intros ?). by exists w2.
    - rewrite !bool_decide_eq_true_2 by congruence.
      destruct (created_eq l w2 b best Hl2 Hv (recommend_legal _ _ _ Hv Hbest Hbm))
        as (bb & _ & _ & Hrun).
      run Hrun. exists (alloc w2 bb). repeat split. by apply alloc_old. }
  run Hrun. clear Hrun.
  (* the position after the played move *)
  run (copy_eq _ _ _ Hl3).
  run (push_at_eq _ _ _ _ _ (alloc_new _ _) Hpush).
  replace (mkWorld _ _ _) with (alloc w3 b')
    by (unfold alloc; simpl; by rewrite insert_insert_eq).
  run (board_at_eq _ _ _ (alloc_new w3 b')).
  assert (oracle_log (alloc w3 b') = oracle_log (queried w b)) as Hlog4
    by (simpl; congruence).
  assert (engine (alloc w3 b') = engine_after (engine w) b) as Heng4
    by (simpl; congruence).
  unfold expected_allowed.
  destruct (is_game_over b') eqn:Hover; cbn [negb].
  { eexists. split; [done |]. split; [done |]. split.
    - rewrite Hlog4.
      unfold queried, ply_queries. destruct (engine w); [|by rewrite app_nil_r].
      by rewrite Hover.
    - unfold engine_after_ply. by rewrite Hover. }
  run (get_best_move_eq _ _ _ (alloc_new w3 b')).
  assert (engine (queried (alloc w3 b') b') = engine_after_ply (engine w) b b')
    as Heng5.
  { unfold engine_after_ply. by rewrite Hover, engine_queried, Heng4. }
  rewrite Heng4.
  assert (oracle_log (queried (alloc w3 b') b')
          = oracle_log w ++ ply_queries (engine w) b b') as Hlog5.
  { unfold queried at 1. rewrite Heng4. unfold ply_queries. rewrite Hover.
    unfold queried, engine_after in *. destruct (engine w); simpl in *.
    - rewrite Hlog4. by rewrite <- app_assoc.
    - by rewrite Hlog4, app_nil_r. }
  destruct (recommend (engine_after (engine w) b) b') as [reply|] eqn:Hreply;
    [|by eexists].
  destruct (move_bool reply) eqn:Hrm; [|by eexists].
  assert (heap (queried (alloc w3 b') b') !! fresh (dom (heap w3)) = Some b') as Hl5
    by (rewrite heap_queried; apply alloc_new).
  destruct (created_eq _ _ b' reply Hl5 Hv' (recommend_legal _ _ _ Hv' Hreply Hrm))
    as (br & _ & _ & Hrun).
  run Hrun. by eexists.
Qed.

Lemma analyze_position_run l w b m :
  heap w !! l = Some b → valid b → is_legal b m = true →
  ∃ b' w',
    push b m = Some b'
    ∧ analyze_position l (Some m) w
      = (Ret (mkPositionResult (created b m)
                (expected_missed (engine w) b m)
                (expected_allowed (engine_after (engine w) b) b')), w')
    ∧ oracle_log w' = oracle_log w ++ ply_queries (engine w) b b'.
Proof.
  intros Hl Hv Hlegal.
  destruct (analyze_position_full l w b m Hl Hv Hlegal)
    as (b' & w' & Hpush & Hrun & Hlog & _).
  by exists b', w'.
Qed.

(** X16: on a standard position and a legal played move the three lists of
    [analyze_position] are: [executed], the pins and skewers of the position
    after the played move; [missed], those of the position after the
    engine's move, when the engine names a move other than the played one,
    and empty otherwise; [allowed], those of the position after the engine's
    reply to the played move, when the game is not over and the engine names
    a reply, and empty otherwise. *)
Theorem analyze_position_lists l w b m :
  heap w !! l = Some b → valid b → is_legal b m = true →
  ∃ b' r w',
    push b m = Some b'
    ∧ analyze_position l (Some m) w = (Ret r, w')
    ∧ executed r = created b m
    ∧ missed r = expected_missed (engine w) b m
    ∧ allowed r = expected_allowed (engine_after (engine w) b) b'.
Proof.
  intros Hl Hv Hlegal.
  destruct (analyze_position_run l w b m Hl Hv Hlegal) as (b' & w' & Hpush & Hrun & _).
  by eexists b', _, w'.
Qed.

(** X17: on a standard position and a legal played move [analyze_position]
    sends the engine the position before the move and then, unless the game
    is over there, the position after it, and nothing else: at most two
    queries, and none when the engine was never started. *)
Theorem analyze_position_queries l w b m :
  heap w !! l = Some b → valid b → is_legal b m = true →
  ∃ b' r w',
    push b m = Some b'
    ∧ analyze_position l (Some m) w = (Ret r, w')
    ∧ oracle_log w' = oracle_log w ++ ply_queries (engine w) b b'
    ∧ (length (ply_queries (engine w) b b') ≤ 2)%nat.
Proof.
  intros Hl Hv Hlegal.
  destruct (analyze_position_run l w b m Hl Hv Hlegal) as (b' & w' & Hpush & Hrun & Hlog).
  eexists b', _, w'. repeat split; try done.
  unfold ply_queries. destruct (engine w); [|simpl; lia].
  destruct (is_game_over b'); simpl; lia.
Qed.

(** The loop of [analyze_game] returns on any run of moves. *)
Lemma game_loop_returns moves :
  ∀ l w b game_result move_number,
    heap w !! l = Some b → valid b →
    ∃ r w', game_loop moves l game_result move_number w = (Ret r, w').
Proof.
  induction moves as [|m moves IH]; intros l w b gr mn Hl Hv; simpl.
  - by eexists _, _.
  - run (board_at_eq _ _ _ Hl).
    destruct (is_legal b m) eqn:Hlegal; [|by eexists _, _].
    destruct (legal_push b m Hv Hlegal) as (b1 & Hpush & Hv1).
    destruct (analyze_position_returns valid l w b m Hl Hv Hlegal)
      as (pr & w1 & Hrun & Hsub).
    run Hrun.
    run (push_at_eq _ _ _ _ _ (lookup_weaken _ _ _ _ Hl Hsub) Hpush).
    assert (heap (mkWorld (<[l := b1]> (heap w1)) (engine w1) (oracle_log w1)) !! l
            = Some b1) as Hl2 by apply lookup_insert_eq.
    run (board_at_eq _ _ _ Hl2).
    by apply (IH l _ b1).
Qed.

Lemma analyze_game_total game w :
  valid (game_board game) →
  ∃ r w', analyze_game game w = (Ret r, w').
Proof.
  intros Hv. unfold analyze_game. run (new_board_eq _ _).
  by apply (game_loop_returns _ _ _ (game_board game) _ _ (alloc_new _ _)).
Qed.

Lemma pgn_loop_returns pgn_file :
  Forall (λ game, valid (game_board game)) pgn_file →
  ∀ game_count results w,
    ∃ r w', pgn_loop pgn_file game_count results w = (Ret r, w').
Proof.
  induction 1 as [|game pgn_file Hv Hrest IH]; intros c results w; simpl.
  - destruct (c <? 5); by eexists _, _.
  - destruct (c <? 5); [|by eexists _, _].
    destruct (analyze_game_total game w Hv) as (gr & w1 & Hrun).
    run Hrun. apply IH.
Qed.

(** X19: on a file whose games all start from standard positions
    [analyze_pgn_file] returns one entry for each game read: the keys of the
    dictionary are exactly [game_1] .. [game_n], [n] being 5 or the number
    of games in the file if that is less. *)
Theorem analyze_pgn_file_standard_games disk pgn_file_path pgn_file w :
  disk !! pgn_file_path = Some pgn_file →
  Forall (λ game, valid (game_board game)) pgn_file →
  ∃ results w',
    analyze_pgn_file disk pgn_file_path w = (Ret results, w')
    ∧ dom results = keys_upto (Z.min 5 (Z.of_nat (length pgn_file))).
Proof.
  intros Hfile Hv.
  destruct (pgn_loop_returns pgn_file Hv 0 ∅ w) as (results & w' & Hrun).
  exists results, w'. split.
  - unfold analyze_pgn_file, try_except, open. rewrite Hfile.
    change ((mret pgn_file ≫= λ pgn_file, pgn_loop pgn_file 0 ∅) w)
      with (pgn_loop pgn_file 0 ∅ w).
    by rewrite Hrun.
  - apply pgn_loop_dom in Hrun; [|lia].
    rewrite Hrun, dom_empty_L, (left_id_L ∅ (∪)). unfold keys_upto.
    by replace (5 - 0) with 5 by lia.
Qed.

(** ** What the game analyzer returns *)

Section GameRecords.
(** [Board.push] hands the move to the other side. *)
Hypothesis push_turn : ∀ b m b', push b m = Some b' → turn b' = negb (turn b).

Lemma spec_full_move_number_snoc before p :
  spec_full_move_number (before ++ [p])
  = if ply_mover p then spec_full_move_number before
    else spec_full_move_number before + 1.
Proof.
  unfold spec_full_move_number. rewrite filter_app, length_app.
  destruct p as [[|] found]; simpl; lia.
Qed.

Lemma legal_prefix_stops pre bad rest :
  ∀ b bk, replay b pre = Some bk → is_legal bk bad = false →
    legal_prefix b (pre ++ bad :: rest) = pre.
Proof.
  induction pre as [|m pre IH]; intros b bk; simpl.
  - intros [= <-] Hbad. by rewrite Hbad.
  - destruct (is_legal b m); [|done].
    destruct (push b m) as [b'|]; [|done]. simpl.
    intros Hreplay Hbad. by rewrite (IH b' bk).
Qed.

(** The moves of a mainline fall into those before the first illegal one
    and the rest. *)
Lemma legal_prefix_split moves :
  ∀ b, valid b →
    ∃ rest last,
      moves = legal_prefix b moves ++ rest
      ∧ replay b (legal_prefix b moves) = Some last
      ∧ match rest with
        | [] => True
        | bad :: _ => is_legal last bad = false
        end.
Proof.
  induction moves as [|m moves IH]; intros b Hv; simpl.
  - by exists [], b.
  - destruct (is_legal b m) eqn:Hlegal.
    + destruct (legal_push b m Hv Hlegal) as (b' & Hpush & Hv').
      rewrite Hpush. destruct (IH b' Hv') as (rest & last & Hsplit & Hreplay & Hrest).
      exists rest, last. simpl. rewrite Hlegal, Hpush. simpl.
      split; [by rewrite <- Hsplit | done].
    + exists (m :: moves), b. by rewrite Hlegal.
Qed.

(** The loop of [analyze_game], run to its end: it analyzes and plays the
    moves before the first illegal one, and nothing else. *)
Lemma game_loop_run moves :
  ∀ l w b before game_result,
    heap w !! l = Some b → valid b →
    ∃ r w' last,
      game_loop moves l game_result (spec_full_move_number before) w = (Ret r, w')
      ∧ replay b (legal_prefix b moves) = Some last
      ∧ heap w' !! l = Some last
      ∧ g_executed r
        = g_executed game_result
          ++ spec_tagged_from executed before
               (spec_plies b (engine w) (legal_prefix b moves))
      ∧ g_missed r
        = g_missed game_result
          ++ spec_tagged_from missed before
               (spec_plies b (engine w) (legal_prefix b moves))
      ∧ g_allowed r
        = g_allowed game_result
          ++ spec_tagged_from allowed before
               (spec_plies b (engine w) (legal_prefix b moves))
      ∧ oracle_log w'
        = oracle_log w ++ spec_queries b (engine w) (legal_prefix b moves).
Proof.
  induction moves as [|m moves IH]; intros l w b before gr Hl Hv.
  - exists gr, w, b. simpl. by rewrite !app_nil_r.
  - cbn [game_loop legal_prefix]. run (board_at_eq _ _ _ Hl).
    destruct (is_legal b m) eqn:Hlegal.
    2: { exists gr, w, b. simpl. by rewrite !app_nil_r. }
    destruct (analyze_position_full l w b m Hl Hv Hlegal)
      as (b1 & w1 & Hpush & Hrun & Hlog & Heng).
    destruct (legal_push b m Hv Hlegal) as (b1' & Hpush' & Hv1).
    assert (b1' = b1) as -> by congruence.
    destruct (analyze_position_returns valid l w b m Hl Hv Hlegal)
      as (pr & w1' & Hrun' & Hsub).
    assert (w1' = w1) as -> by congruence.
    run Hrun. rewrite Hpush.
    run (push_at_eq _ _ _ _ _ (lookup_weaken _ _ _ _ Hl Hsub) Hpush).
    set (w2 := mkWorld (<[l := b1]> (heap w1)) (engine w1) (oracle_log w1)).
    assert (heap w2 !! l = Some b1) as Hl2 by apply lookup_insert_eq.
    run (board_at_eq _ _ _ Hl2).
    set (p := mkPly (turn b)
                (mkPositionResult (created b m) (expected_missed (engine w) b m)
                   (expected_allowed (engine_after (engine w) b) b1))).
    replace (if turn b1 then spec_full_move_number before + 1
             else spec_full_move_number before)
      with (spec_full_move_number (before ++ [p])).
    2: { rewrite spec_full_move_number_snoc, (push_turn _ _ _ Hpush). simpl.
         by destruct (turn b). }
    destruct (IH l w2 b1 (before ++ [p])
                (add_tagged gr (ply_found p) (spec_full_move_number before) (turn b))
                Hl2 Hv1)
      as (r & w' & last & Hloop & Hreplay & Hlast & He & Hm & Ha & Hq).
    exists r, w', last. split; [exact Hloop |].
    cbn [replay spec_plies spec_queries spec_tagged_from]. rewrite Hlegal, Hpush.
    cbn [mbind option_bind]. split; [exact Hreplay |]. split; [exact Hlast |].
    fold p. simpl in He, Hm, Ha, Hq. rewrite Heng in He, Hm, Ha, Hq.
    rewrite He, Hm, Ha, Hq, Hlog. unfold color_name.
    by rewrite <- !app_assoc.
Qed.

Lemma analyze_game_run game w :
  valid (game_board game) →
  ∃ r w' last,
    analyze_game game w = (Ret r, w')
    ∧ replay (game_board game)
        (legal_prefix (game_board game) (mainline_moves game)) = Some last
    ∧ r = spec_game_result (game_board game) (engine w)
            (legal_prefix (game_board game) (mainline_moves game))
    ∧ heap w' !! fresh (dom (heap w)) = Some last
    ∧ oracle_log w'
      = oracle_log w
        ++ spec_queries (game_board game) (engine w)
             (legal_prefix (game_board game) (mainline_moves game)).
Proof.
  intros Hv. unfold analyze_game. run (new_board_eq _ _).
  destruct (game_loop_run (mainline_moves game) (fresh (dom (heap w)))
              (alloc w (game_board game)) (game_board game) []
              (mkGameResult [] [] []) (alloc_new _ _) Hv)
    as (r & w' & last & Hloop & Hreplay & Hlast & He & Hm & Ha & Hq).
  exists r, w', last. repeat split; try done.
  destruct r as [e m a]. simpl in He, Hm, Ha. by subst.
Qed.

(** C5: when the first illegal move of the mainline is at ply [k] (after
    the [k - 1] moves of [pre], each legal where it is played),
    [analyze_game] returns, without raising, exactly the records of plies 1
    to [k - 1]: in each of its three lists, for each of these plies in
    order, the records the position analyzer produces for the ply, each
    tagged with the ply's full-move number (1 plus the number of moves Black
    has completed before it) and the colour that moved.  It stops there: its
    board is left at the position of ply [k], and the engine has been asked
    about plies 1 to [k - 1] only. *)
Theorem analyze_game_stops_at_illegal_move game pre bad rest bk w :
  valid (game_board game) →
  mainline_moves game = pre ++ bad :: rest →
  replay (game_board game) pre = Some bk →
  is_legal bk bad = false →
  ∃ r w',
    analyze_game game w = (Ret r, w')
    ∧ r = spec_game_result (game_board game) (engine w) pre
    ∧ length (spec_plies (game_board game) (engine w) pre) = length pre
    ∧ heap w' !! fresh (dom (heap w)) = Some bk
    ∧ oracle_log w' = oracle_log w ++ spec_queries (game_board game) (engine w) pre.
Proof.
  intros Hv Hmoves Hreplay Hbad.
  destruct (analyze_game_run game w Hv) as (r & w' & last & Hrun & Hlast & Hr & Hb & Hq).
  rewrite Hmoves, (legal_prefix_stops _ _ _ _ _ Hreplay Hbad) in Hlast, Hr, Hq.
  exists r, w'. repeat split; try done; [|congruence].
  clear -Hreplay. revert Hreplay. generalize (game_board game) (engine w).
  induction pre as [|m pre IH]; intros b e; simpl; [done |].
  destruct (is_legal b m); [|done]. destruct (push b m) as [b'|]; [|done].
  simpl. intros Hreplay. by rewrite (IH b' _ Hreplay).
Qed.

(** X18: on a game that starts from a standard position [analyze_game]
    returns, whatever its moves.  The mainline falls into the moves played,
    each legal where it is played, and the rest, which is empty or starts
    with a move that is illegal in the position reached; the result holds
    the tagged records of the moves played and of no other, the board of
    the game is left at the position reached, and the engine has been asked
    about the moves played only. *)
Theorem analyze_game_returns game w :
  valid (game_board game) →
  ∃ played rest last r w',
    mainline_moves game = played ++ rest
    ∧ replay (game_board game) played = Some last
    ∧ match rest with
      | [] => True
      | bad :: _ => is_legal last bad = false
      end
    ∧ analyze_game game w = (Ret r, w')
    ∧ r = spec_game_result (game_board game) (engine w) played
    ∧ heap w' !! fresh (dom (heap w)) = Some last
    ∧ oracle_log w'
      = oracle_log w ++ spec_queries (game_board game) (engine w) played.
Proof.
  intros Hv.
  destruct (analyze_game_run game w Hv) as (r & w' & last & Hrun & Hlast & Hr & Hb & Hq).
  destruct (legal_prefix_split (mainline_moves game) (game_board game) Hv)
    as (rest & last' & Hsplit & Hreplay & Hrest).
  assert (last' = last) as -> by congruence.
  by exists (legal_prefix (game_board game) (mainline_moves game)), rest, last, r, w'.
Qed.

End GameRecords.

End PositionResult.

(** ** The tags of a game's records *)

Lemma StronglySorted_append {A} (R : relation A) l1 l2 :
  StronglySorted R l1 → StronglySorted R l2 →
  (∀ x y, x ∈ l1 → y ∈ l2 → R x y) →
  StronglySorted R (l1 ++ l2).
Proof.
  induction 1 as [|x l1 Hl1 IH Hx]; intros Hl2 Hcross; simpl; [done |].
  constructor.
  - apply IH; [done |]. intros x' y Hx' Hy. apply Hcross; [by right | done].
  - apply Forall_app. split; [done |]. apply Forall_forall.
    intros y Hy. apply Hcross; [left | done].
Qed.

Lemma tagged_upto_mono last last' l :
  last ≤ last' → tagged_upto last l → tagged_upto last' l.
Proof.
  intros Hle [Hall Hsorted]. split; [|done].
  eapply Forall_impl; [exact Hall |]. intros t [? ?]. split; [lia | done].
Qed.

Lemma tagged_upto_app last side l tactics :
  1 ≤ last → tagged_upto last l →
  tagged_upto last (l ++ ((λ t, mkTagged t last (color_name side)) <$> tactics)).
Proof.
  intros Hlast [Hall Hsorted]. split.
  - apply Forall_app. split; [done |]. apply Forall_fmap, Forall_forall.
    intros t _. simpl. split; [lia |]. destruct side; auto.
  - apply StronglySorted_append; [done | |].
    + induction tactics as [|t tactics IH]; simpl; constructor; [done |].
      apply Forall_fmap, Forall_forall. intros t' _. simpl. lia.
    + intros x y Hx Hy. apply list_elem_of_fmap in Hy as (t & -> & _). simpl.
      apply (proj1 (Forall_forall _ _) Hall) in Hx. lia.
Qed.

Section Tags.
Context `{rules : Rules} `{eng : Engine}.

Lemma add_tagged_numbered last side game_result position_result :
  1 ≤ last → numbered last game_result →
  numbered last (add_tagged game_result position_result last side).
Proof.
  intros Hlast (He & Hm & Ha). unfold add_tagged, numbered. simpl.
  repeat split; by apply tagged_upto_app.
Qed.

Lemma numbered_mono last last' r : last ≤ last' → numbered last r → numbered last' r.
Proof. intros Hle (He & Hm & Ha). repeat split; by eapply tagged_upto_mono. Qed.

Lemma on_return_bind {A B} (m : M A) (k : A → M B) w (P : B → Prop) :
  (∀ a w1, m w = (Ret a, w1) → on_return (k a w1).1 P) →
  on_return ((m ≫= k) w).1 P.
Proof.
  unfold mbind, M_bind_inst, M_bind. intros Hk.
  destruct (m w) as [[a|c] w1]; [by apply Hk | done].
Qed.

Lemma game_loop_numbered moves :
  ∀ l game_result move_number w,
    1 ≤ move_number → numbered move_number game_result →
    on_return (game_loop moves l game_result move_number w).1
              (λ r, ∃ last, numbered last r).
Proof.
  induction moves as [|m moves IH]; intros l gr mn w Hmn Hgr; cbn [game_loop].
  - by exists mn.
  - apply on_return_bind. intros b w0 _.
    destruct (is_legal b m); [|by exists mn].
    apply on_return_bind. intros pr w1 _.
    apply on_return_bind. intros [] w2 _.
    apply on_return_bind. intros b' w3 _.
    apply IH; [destruct (turn b'); lia |].
    apply (numbered_mono mn); [destruct (turn b'); lia |].
    by apply add_tagged_numbered.
Qed.

(** X20: in each of the three lists [analyze_game] returns, the move
    numbers start from 1 and never decrease along the list, and every colour
    tag is ["white"] or ["black"]. *)
Theorem analyze_game_tags game w :
  on_return (analyze_game game w).1 (λ r, ∃ last, numbered last r).
Proof.
  unfold analyze_game. apply on_return_bind. intros board w1 _.
  apply game_loop_numbered; [lia |].
  repeat split; constructor.
Qed.

End Tags.

(** ** The further properties on [plain_rules] and [counting_engine] *)

Section PlainAgain.
#[local] Existing Instance plain_rules.
#[local] Existing Instance counting_engine.

Lemma analyze_position_lists_witness :
  ∃ b' r w',
    push h_file (plain 2 10) = Some b'
    ∧ analyze_position 1%positive (Some (plain 2 10)) (h_file_world 2) = (Ret r, w')
    ∧ executed r = created h_file (plain 2 10)
    ∧ missed r = expected_missed (engine (h_file_world 2)) h_file (plain 2 10)
    ∧ allowed r
      = expected_allowed (engine_after (engine (h_file_world 2)) h_file) b'.
Proof.
  apply (analyze_position_lists plain_valid (Lawful0 := plain_lawful)
           1%positive (h_file_world 2) h_file (plain 2 10)).
  - reflexivity.
  - exact h_file_valid.
  - reflexivity.
Defined.

Lemma analyze_position_queries_witness :
  ∃ b' r w',
    push h_file (plain 2 10) = Some b'
    ∧ analyze_position 1%positive (Some (plain 2 10)) (h_file_world 2) = (Ret r, w')
    ∧ oracle_log w'
      = oracle_log (h_file_world 2) ++ ply_queries (engine (h_file_world 2)) h_file b'
    ∧ (length (ply_queries (engine (h_file_world 2)) h_file b') ≤ 2)%nat.
Proof.
  apply (analyze_position_queries plain_valid (Lawful0 := plain_lawful)
           1%positive (h_file_world 2) h_file (plain 2 10)).
  - reflexivity.
  - exact h_file_valid.
  - reflexivity.
Defined.

Lemma plain_push_turn b m b' : push b m = Some b' → turn b' = negb (turn b).
Proof.
  unfold push, plain_rules, plain_push.
  destruct (piece_at b (from_square m)); [|done]. by intros [= <-].
Qed.

(** C5 on [broken_game], whose third ply is illegal. *)
Lemma analyze_game_stops_at_illegal_move_witness :
  ∃ r w',
    analyze_game broken_game (start_world (Some 2%nat)) = (Ret r, w')
    ∧ r = spec_game_result h_file (Some 2%nat) [plain 2 10; plain 63 62]
    ∧ length (spec_plies h_file (Some 2%nat) [plain 2 10; plain 63 62]) = 2%nat
    ∧ heap w' !! fresh (dom (heap (start_world (Some 2%nat))))
      = Some (default h_file (replay h_file [plain 2 10; plain 63 62]))
    ∧ oracle_log w'
      = oracle_log (start_world (Some 2%nat))
        ++ spec_queries h_file (Some 2%nat) [plain 2 10; plain 63 62].
Proof.
  apply (analyze_game_stops_at_illegal_move plain_valid (Lawful0 := plain_lawful)
           plain_push_turn broken_game [plain 2 10; plain 63 62] (plain 1 2)
           [plain 7 15] (default h_file (replay h_file [plain 2 10; plain 63 62]))).
  - exact h_file_valid.
  - reflexivity.
  - vm_compute. reflexivity.
  - vm_compute. reflexivity.
Defined.

(** The records of [broken_game]: one for each of the two plies played,
    both of full move 1, and none for the moves from the third on. *)
Example analyze_game_broken_game :
  (analyze_game broken_game (start_world (Some 2%nat))).1
  = Ret (mkGameResult
           [mkTagged (SkewerT (mkSkewer ROOK "h8" QUEEN "h5" ROOK "h1")) 1 "white";
            mkTagged (SkewerT (mkSkewer QUEEN "h5" KING "a8" ROOK "g8")) 1 "black"]
           [] []).
Proof. vm_compute. reflexivity. Qed.

Lemma analyze_game_returns_witness :
  ∃ played rest last r w',
    mainline_moves five_plies = played ++ rest
    ∧ replay h_file played = Some last
    ∧ match rest with
      | [] => True
      | bad :: _ => is_legal last bad = false
      end
    ∧ analyze_game five_plies (start_world (Some 2%nat)) = (Ret r, w')
    ∧ r = spec_game_result h_file (Some 2%nat) played
    ∧ heap w' !! fresh (dom (heap (start_world (Some 2%nat)))) = Some last
    ∧ oracle_log w'
      = oracle_log (start_world (Some 2%nat)) ++ spec_queries h_file (Some 2%nat) played.
Proof.
  apply (analyze_game_returns plain_valid (Lawful0 := plain_lawful) plain_push_turn
           five_plies).
  exact h_file_valid.
Defined.

(** The records of [five_plies]: the full-move number goes up after each of
    Black's moves. *)
Example analyze_game_five_plies :
  (analyze_game five_plies (start_world (Some 2%nat))).1
  = Ret (mkGameResult
           [mkTagged (SkewerT (mkSkewer ROOK "h8" QUEEN "h5" ROOK "h1")) 1 "white";
            mkTagged (SkewerT (mkSkewer QUEEN "h5" KING "a8" ROOK "g8")) 1 "black";
            mkTagged (SkewerT (mkSkewer QUEEN "g5" KING "a7" ROOK "g8")) 2 "black";
            mkTagged (SkewerT (mkSkewer ROOK "g8" QUEEN "g5" ROOK "g1")) 3 "white"]
           [] []).
Proof. vm_compute. reflexivity. Qed.

Lemma analyze_pgn_file_standard_games_witness :
  ∃ results w',
    analyze_pgn_file six_games "games.pgn" (start_world (Some 3%nat)) = (Ret results, w')
    ∧ dom results
      = keys_upto (Z.min 5 (Z.of_nat (length (replicate 6 broken_game)))).
Proof.
  apply (analyze_pgn_file_standard_games plain_valid (Lawful0 := plain_lawful)
           six_games "games.pgn" (replicate 6 broken_game)).
  - reflexivity.
  - apply Forall_replicate. exact h_file_valid.
Defined.

End PlainAgain.

(** * The detectors report every configuration they look for *)

Lemma on_ray_in_range a step n i :
  0 ≤ a < 64 → 0 ≤ a + n * step < 64 → 0 < i < n → 0 ≤ a + i * step < 64.
Proof. intros Ha Hn Hi. destruct (Z.le_gt_cases 0 step); nia. Qed.

Lemma on_ray_steps a step n :
  0 ≤ a < 64 → 0 ≤ a + n * step < 64 → 0 < n → step ≠ 0 → n ≤ 63.
Proof. intros Ha Hn Hpos Hstep. destruct (Z.lt_total step 0) as [?|[?|?]]; nia. Qed.

Lemma for_each_grows {A B} (xs : list A) (body : list B → A → res (list B)) :
  (∀ acc x acc', body acc x = Ret acc' → ∃ more, acc' = acc ++ more) →
  ∀ acc r, for_each xs acc body = Ret r → ∃ more, r = acc ++ more.
Proof.
  intros Hbody. induction xs as [|x xs IH]; intros acc r; simpl.
  - intros [= <-]. exists []. by rewrite app_nil_r.
  - destruct (body acc x) as [acc'|c] eqn:Hx; simpl; [|done].
    intros Hrun. apply IH in Hrun as [more ->].
    apply Hbody in Hx as [more' ->]. exists (more' ++ more). by rewrite app_assoc.
Qed.

(** A loop that only appends keeps what one of its rounds appends. *)
Lemma for_each_keeps {A B} (xs : list A) (body : list B → A → res (list B)) x y :
  x ∈ xs →
  (∀ acc x' acc', body acc x' = Ret acc' → ∃ more, acc' = acc ++ more) →
  (∀ acc acc', body acc x = Ret acc' → y ∈ acc') →
  ∀ acc r, for_each xs acc body = Ret r → y ∈ r.
Proof.
  intros Hx Happ Hy. revert Hx.
  induction xs as [|x' xs IH]; intros Hx acc r; simpl;
    [by apply elem_of_nil in Hx |].
  destruct (body acc x') as [acc'|c] eqn:Hbody; simpl; [|done].
  intros Hrun. apply elem_of_cons in Hx as [->|Hx].
  - apply (for_each_grows _ _ Happ) in Hrun as [more ->].
    apply elem_of_app. left. by eapply Hy.
  - by eapply IH.
Qed.

Lemma pin_scan_finds b fd rd sq0 n q :
  0 ≤ sq0 + n * (- fd - 8 * rd) < 64 →
  piece_at b (sq0 + n * (- fd - 8 * rd)) = Some q →
  color q ≠ turn b → can_piece_pin (piece_type q) fd rd = true →
  ∀ fuel m seen,
    0 ≤ m < n → n - m ≤ Z.of_nat fuel →
    (∀ i, m < i < n → 0 ≤ sq0 + i * (- fd - 8 * rd) < 64
                      ∧ piece_at b (sq0 + i * (- fd - 8 * rd)) = None) →
    ∃ seen',
      pin_scan fuel b fd rd (sq0 + m * (- fd - 8 * rd)) seen
      = Ret (seen', Some (mkPinningPiece (piece_type q)
                            (square_name (sq0 + n * (- fd - 8 * rd))))).
Proof.
  intros Hrange Hq Hc Hfits.
  induction fuel as [|fuel IH]; intros m seen Hm Hfuel Hempty; [lia |].
  simpl.
  replace (sq0 + m * (- fd - 8 * rd) - fd - 8 * rd)
    with (sq0 + (m + 1) * (- fd - 8 * rd)) by ring.
  destruct (decide (m + 1 = n)) as [Heq|Hne].
  - rewrite Heq. rewrite (proj2 (in_range_spec _) Hrange), Hq. simpl.
    rewrite bool_decide_eq_true_2 by done. rewrite Hfits. simpl. by eexists.
  - destruct (Hempty (m + 1)) as [Hr Hnone]; [lia |].
    rewrite (proj2 (in_range_spec _) Hr), Hnone. simpl.
    apply IH; [lia | lia |]. intros i Hi. apply Hempty. lia.
Qed.

(** X21: when the side to move has a king, [detect_pins] reports a pin for
    every piece of that side from whose square, stepping the square index
    away from the king by the signs of the file and rank differences, the
    first piece met (on the board) is one of the other side whose kind fits
    the signs. *)
Theorem detect_pins_complete b king_sq sq piece n q :
  let file_diff := Z.sgn (square_file king_sq - square_file sq) in
  let rank_diff := Z.sgn (square_rank king_sq - square_rank sq) in
  let step := - file_diff - 8 * rank_diff in
  king b (turn b) = Some king_sq →
  0 ≤ sq < 64 → piece_at b sq = Some piece → color piece = turn b →
  0 < n → 0 ≤ sq + n * step < 64 →
  (∀ i, 0 < i < n → piece_at b (sq + i * step) = None) →
  piece_at b (sq + n * step) = Some q → color q ≠ turn b →
  can_piece_pin (piece_type q) file_diff rank_diff = true →
  ∃ pins, detect_pins b = Ret pins
    ∧ mkPin (piece_type piece) (square_name sq)
            (piece_type q) (square_name (sq + n * step)) ∈ pins.
Proof.
  intros fd rd step Hk Hsq Hp Hc Hn Hrange Hempty Hq Hcq Hfits.
  destruct (detect_pins_returns b (mk_is_Some _ _ Hk)) as [pins Hrun].
  exists pins. split; [done |]. revert Hrun. unfold detect_pins.
  apply for_each_keeps with (x := sq); [by apply elem_of_SQUARES | |].
  - intros acc sq' acc'. destruct (negb _); [|intros [= <-]; exists []; by rewrite app_nil_r].
    destruct (piece_at b sq'); [|intros [= <-]; exists []; by rewrite app_nil_r].
    case_bool_decide; [|intros [= <-]; exists []; by rewrite app_nil_r].
    destruct (find_pinning_piece _ _ _) as [[pp|]|c]; simpl;
      [| intros [= <-]; exists []; by rewrite app_nil_r | done].
    intros [= <-]. by eexists.
  - intros acc acc'. rewrite pin_mask_of_king, mask_of_all_squares by done.
    rewrite Hp, Hk. cbn [negb]. rewrite bool_decide_eq_true_2 by done.
    unfold find_pinning_piece. rewrite !normalize_sgn. fold fd rd.
    assert (step ≠ 0) as Hstep.
    { intros Hzero. rewrite Hzero, Z.mul_0_r, Z.add_0_r in Hq.
      rewrite Hp in Hq. injection Hq as <-. done. }
    pose proof (on_ray_steps sq step n Hsq Hrange Hn Hstep) as Hsteps.
    destruct (pin_scan_finds b fd rd sq n q Hrange Hq Hcq Hfits ray_fuel 0 [])
      as [seen' Hscan]; [lia | unfold ray_fuel; lia | |].
    { intros i Hi. split; [by apply (on_ray_in_range sq _ n) | apply Hempty; lia]. }
    replace (sq + 0 * (- fd - 8 * rd)) with sq in Hscan by ring.
    rewrite Hscan. simpl. intros [= <-]. apply elem_of_app. right. left.
Qed.

Lemma detect_pins_complete_witness :
  ∃ pins, detect_pins knight_e2 = Ret pins
    ∧ mkPin KNIGHT (square_name 12) ROOK (square_name 60) ∈ pins.
Proof.
  refine (detect_pins_complete knight_e2 4 12 wN 6 bR _ _ _ _ _ _ _ _ _ _);
    try reflexivity; try lia; try (by vm_compute).
  intros i Hi.
  assert (i = 1 ∨ i = 2 ∨ i = 3 ∨ i = 4 ∨ i = 5) as Hcases by lia.
  repeat (destruct Hcases as [->|Hcases]; [reflexivity |]). by subst i.
Defined.

Lemma skewer_scan_finds b piece fd rd sq0 i j pf pb :
  0 < i < j →
  0 ≤ sq0 < 64 → 0 ≤ sq0 + j * (fd + 8 * rd) < 64 →
  piece_at b (sq0 + i * (fd + 8 * rd)) = Some pf → color pf ≠ color piece →
  piece_at b (sq0 + j * (fd + 8 * rd)) = Some pb → color pb ≠ color piece →
  (∀ k, 0 < k < j → k ≠ i → piece_at b (sq0 + k * (fd + 8 * rd)) = None) →
  ∀ fuel m st,
    0 ≤ m < j → j - m ≤ Z.of_nat fuel →
    pieces_in_line st
    = (if bool_decide (m < i) then []
       else [mkLinePiece (sq0 + i * (fd + 8 * rd)) (piece_type pf)
                         (piece_values (piece_type pf))]) →
    ∃ st',
      skewer_scan fuel b piece fd rd (sq0 + m * (fd + 8 * rd)) st = Ret st'
      ∧ pieces_in_line st'
        = [mkLinePiece (sq0 + i * (fd + 8 * rd)) (piece_type pf)
                       (piece_values (piece_type pf));
           mkLinePiece (sq0 + j * (fd + 8 * rd)) (piece_type pb)
                       (piece_values (piece_type pb))].
Proof.
  intros Hij Hsq0 Hrange Hpf Hcf Hpb Hcb Hempty.
  induction fuel as [|fuel IH]; intros m st Hm Hfuel Hline; [lia |].
  simpl.
  replace (sq0 + m * (fd + 8 * rd) + fd + 8 * rd)
    with (sq0 + (m + 1) * (fd + 8 * rd)) by ring.
  assert (0 ≤ sq0 + (m + 1) * (fd + 8 * rd) < 64) as Hr.
  { destruct (decide (m + 1 = j)) as [->|]; [done |].
    apply (on_ray_in_range sq0 _ j); [done | done | lia]. }
  rewrite (proj2 (in_range_spec _) Hr). simpl.
  destruct (decide (m + 1 = i)) as [Hi|Hni]; [|destruct (decide (m + 1 = j)) as [Hj|Hnj] ].
  - subst i. rewrite Hpf. rewrite bool_decide_eq_true_2 by done.
    rewrite bool_decide_eq_true_2 in Hline by lia. rewrite Hline. simpl.
    apply IH; [lia | lia |]. simpl.
    by rewrite bool_decide_eq_false_2 by lia.
  - rewrite Hj, Hpb. rewrite bool_decide_eq_true_2 by done.
    rewrite bool_decide_eq_false_2 in Hline by lia. rewrite Hline. simpl.
    by eexists.
  - rewrite Hempty by lia. apply IH; [lia | lia |]. simpl. rewrite Hline.
    destruct (decide (m < i)).
    + by rewrite !bool_decide_eq_true_2 by lia.
    + by rewrite !bool_decide_eq_false_2 by lia.
Qed.

(** X22: [detect_skewers] reports a skewer for every queen, rook or bishop
    of the side to move and every direction of its kind in which, stepping
    the square index, the first two pieces met (on the board) are of the
    other side and the first is worth more than the second. *)
Theorem detect_skewers_complete b sq piece fd rd i j pf pb :
  let step := fd + 8 * rd in
  0 ≤ sq < 64 → piece_at b sq = Some piece → color piece = turn b →
  sliding (piece_type piece) →
  (fd, rd) ∈ skewer_directions (piece_type piece) →
  0 < i < j → 0 ≤ sq + j * step < 64 →
  piece_at b (sq + i * step) = Some pf → color pf ≠ turn b →
  piece_at b (sq + j * step) = Some pb → color pb ≠ turn b →
  (∀ k, 0 < k < j → k ≠ i → piece_at b (sq + k * step) = None) →
  piece_values (piece_type pf) > piece_values (piece_type pb) →
  ∃ skewers, detect_skewers b = Ret skewers
    ∧ mkSkewer (piece_type piece) (square_name sq)
               (piece_type pf) (square_name (sq + i * step))
               (piece_type pb) (square_name (sq + j * step)) ∈ skewers.
Proof.
  intros step Hsq Hp Hc Hkind Hd Hij Hrange Hpf Hcf Hpb Hcb Hempty Hvalue.
  destruct (detect_skewers_spec b) as (skewers & Hrun & _).
  exists skewers. split; [done |]. revert Hrun. unfold detect_skewers.
  assert (∀ found0 d found1,
            skewer_direction_step b sq piece found0 d = Ret found1 →
            ∃ more, found1 = found0 ++ more) as Hgrows.
  { intros found0 [fd' rd'] found1. unfold skewer_direction_step.
    destruct (skewer_scan _ _ _ _ _ _ _) as [st|c]; [|done]. simpl.
    destruct (pieces_in_line st) as [|front [|back [|? ?]]];
      try (intros [= <-]; exists []; by rewrite app_nil_r).
    destruct (_ >? _); intros [= <-]; [by eexists | exists []; by rewrite app_nil_r]. }
  apply for_each_keeps with (x := sq); [by apply elem_of_SQUARES | |].
  - intros acc sq' acc'.
    destruct (piece_at b sq'); [|intros [= <-]; exists []; by rewrite app_nil_r].
    destruct (_ && _); [|intros [= <-]; exists []; by rewrite app_nil_r].
    destruct (find_skewers_from_piece _ _ _) as [found|c]; [|done].
    intros [= <-]. by eexists.
  - intros acc acc'. rewrite Hp. rewrite !bool_decide_eq_true_2 by done.
    cbn [andb].
    destruct (find_skewers_from_piece b sq piece) as [found|c] eqn:Hfound; [|done].
    intros [= <-]. apply elem_of_app. right.
    revert Hfound. unfold find_skewers_from_piece.
    apply for_each_keeps with (x := (fd, rd)); [done | |].
    + intros found0 d found1 Hstep.
      eapply (Hgrows found0 d found1).
      unfold skewer_direction_step in *. exact Hstep.
    + intros found0 found1. unfold skewer_direction_step.
      pose proof (skewer_directions_step _ _ Hd) as Hstep. simpl in Hstep.
      pose proof (on_ray_steps sq (fd + 8 * rd) j Hsq Hrange ltac:(lia) Hstep).
      destruct (skewer_scan_finds b piece fd rd sq i j pf pb Hij Hsq Hrange Hpf
                  ltac:(by rewrite Hc) Hpb ltac:(by rewrite Hc) Hempty
                  ray_fuel 0 (mkScan [] []))
        as (st & Hscan & Hline); [lia | unfold ray_fuel; lia | |].
      { simpl. by rewrite bool_decide_eq_true_2 by lia. }
      replace (sq + 0 * (fd + 8 * rd)) with sq in Hscan by ring.
      rewrite Hscan. simpl. rewrite Hline. simpl.
      rewrite (proj2 (Z.gtb_lt _ _)) by lia.
      intros [= <-]. apply elem_of_app. right. left.
Qed.

Lemma detect_skewers_complete_witness :
  ∃ skewers, detect_skewers file_a_skewer = Ret skewers
    ∧ mkSkewer ROOK (square_name 0) QUEEN (square_name 24)
               ROOK (square_name 56) ∈ skewers.
Proof.
  refine (detect_skewers_complete file_a_skewer 0 wR 0 1 3 7 bQ bR
            _ _ _ _ _ _ _ _ _ _ _ _ _);
    try reflexivity; try lia; try (by vm_compute);
    try (apply (bool_decide_unpack _); by vm_compute).
  intros k Hk Hne.
  assert (k = 1 ∨ k = 2 ∨ k = 4 ∨ k = 5 ∨ k = 6) as Hcases by lia.
  repeat (destruct Hcases as [->|Hcases]; [reflexivity |]). by subst k.
Defined.
